(** * Payca: ledger balances and debt settlement

    A shallow embedding of the two computations of [src/index.tsx] that
    decide who owes whom:

    - the [balances] computation of [SettlementScreen] (lines 331-359,
      repeated verbatim in [GroupDetail], lines 1071-1099), called
      [computeBalances] here as in the specification;
    - [calculateSettlements] (lines 65-88), which the specification calls
      [computeSettlements];

    and of the code around them that feeds or reads the ledger: the shares
    of [FinancialAdvisor] (lines 99-124), the totals of [AnalyticsScreen]
    (lines 391-406), the expense form of [GroupDetail] (lines 1106-1181),
    the members editor and submission of [CreateGroupScreen] (lines
    849-880), and [handleLogin], [handleCreateGroup], [handleAddExpense]
    and [selectedGroup] of [App] (lines 608-725).

    Modelling choices.

    - JavaScript numbers are modelled by exact rationals [Q]; [0.01] is
      [1 # 100].  Rounding, [NaN] and the infinities of IEEE doubles are
      outside the model.  Equality of amounts is [Qeq].
    - The object [memberBalances] is an association list in insertion
      order.  [Object.values] follows the property order of ECMAScript:
      keys that are array indices first, in ascending numeric order, then
      the other string keys in insertion order.  Keys are assumed not to
      name a property of [Object.prototype].
    - [parseFloat], [trim] and [toLowerCase] are parameters of the
      definitions that call them; [Date.now()] is a parameter giving the
      reading at each call, and a number printed into an id is a
      non-negative integer written in decimal.
    - Reading a field of [undefined] raises [TypeError]; the functions
      return in a small error monad that makes this explicit.
    - The [while] loop of [calculateSettlements] runs on fuel; that the fuel
      given is always enough is a theorem. *)

From Stdlib Require Import List String Ascii Bool Arith NArith ZArith.
From Stdlib Require Import DecimalString DecimalN.
From Stdlib Require Import QArith Qabs Qminmax Lia Lqa Permutation Sorted.
Import ListNotations.

Open Scope Q_scope.

(** ** Errors *)

Inductive result (A : Type) : Type :=
| Ok (a : A)
| TypeError.

Arguments Ok {A} a.
Arguments TypeError {A}.

Definition bind {A B : Type} (r : result A) (k : A -> result B) : result B :=
  match r with
  | Ok a => k a
  | TypeError => TypeError
  end.

Notation "x <- r ;; k" := (bind r (fun x => k))
  (at level 61, r at next level, right associativity).

(** [xs.forEach(x => body)] on a state that the body mutates. *)
Fixpoint forEach {A S : Type} (body : S -> A -> result S) (xs : list A) (s : S)
  : result S :=
  match xs with
  | [] => Ok s
  | x :: xs' => s' <- body s x ;; forEach body xs' s'
  end.

(** ** Numbers *)

Definition Qltb (x y : Q) : bool := negb (Qle_bool y x).

(** [x || 0] on a number: zero is the only falsy rational. *)
Definition or_zero (x : Q) : Q := if Qeq_bool x 0 then 0 else x.

(** The tolerance literal [0.01]. *)
Definition tolerance : Q := 1 # 100.

(** [xs.sort(cmp)]: the sort of ECMAScript is stable, and so is insertion
    from the right; [x] stays in front of [y] when [cmp x y <= 0]. *)
Section JsSort.
Context {A : Type} (cmp : A -> A -> Q).

Fixpoint sort_insert (x : A) (l : list A) : list A :=
  match l with
  | [] => [x]
  | y :: l' => if Qle_bool (cmp x y) 0 then x :: l else y :: sort_insert x l'
  end.

Fixpoint js_sort (l : list A) : list A :=
  match l with
  | [] => []
  | x :: l' => sort_insert x (js_sort l')
  end.
End JsSort.

(** ** JavaScript objects used as maps *)

Module JsObject.

Definition t (V : Type) : Type := list (string * V).

Section Ops.
Context {V : Type}.

(** [o[k]] *)
Fixpoint get (o : t V) (k : string) : option V :=
  match o with
  | [] => None
  | (k', v) :: o' => if (k' =? k)%string then Some v else get o' k
  end.

(** [o[k] = v]: an existing property keeps its place, a new one goes last. *)
Fixpoint set (o : t V) (k : string) (v : V) : t V :=
  match o with
  | [] => [(k, v)]
  | (k', v') :: o' =>
      if (k' =? k)%string then (k, v) :: o' else (k', v') :: set o' k v
  end.

(** In-place mutation of the object stored under [k]. *)
Fixpoint alter (f : V -> V) (o : t V) (k : string) : t V :=
  match o with
  | [] => []
  | (k', v) :: o' =>
      if (k' =? k)%string then (k', f v) :: o' else (k', v) :: alter f o' k
  end.

Definition keys (o : t V) : list string := map fst o.
End Ops.

(** Array indices: canonical decimal strings of value at most 2^32 - 2. *)
Definition digit_of (c : ascii) : option N :=
  let n := N_of_ascii c in
  if ((48 <=? n) && (n <=? 57))%N then Some (n - 48)%N else None.

Fixpoint digits_value (s : string) (acc : N) : option N :=
  match s with
  | EmptyString => Some acc
  | String c s' =>
      match digit_of c with
      | Some d => digits_value s' (10 * acc + d)%N
      | None => None
      end
  end.

Definition array_index (s : string) : option N :=
  match s with
  | EmptyString => None
  | String c s' =>
      if Ascii.eqb c "0"%char && negb (s' =? "")%string then None
      else match digits_value s 0%N with
           | Some n => if (n <=? 4294967294)%N then Some n else None
           | None => None
           end
  end.

Definition is_index (s : string) : bool :=
  match array_index s with Some _ => true | None => false end.

Definition index_of (s : string) : N :=
  match array_index s with Some n => n | None => 0%N end.

Section Values.
Context {V : Type}.

Fixpoint index_insert (e : string * V) (l : t V) : t V :=
  match l with
  | [] => [e]
  | e' :: l' =>
      if (index_of (fst e) <=? index_of (fst e'))%N then e :: l
      else e' :: index_insert e l'
  end.

Fixpoint index_sort (l : t V) : t V :=
  match l with
  | [] => []
  | e :: l' => index_insert e (index_sort l')
  end.

(** Own properties in the order of [OrdinaryOwnPropertyKeys]. *)
Definition entries (o : t V) : t V :=
  index_sort (filter (fun e => is_index (fst e)) o)
    ++ filter (fun e => negb (is_index (fst e))) o.

(** [Object.values(o)] *)
Definition values (o : t V) : list V := map snd (entries o).
End Values.

End JsObject.

(** ** Data model *)

Module Member.
Record t : Type := mk { id : string; name : string }.
End Member.

Module Split.
Record t : Type := mk { memberId : string; amount : Q }.
End Split.

Module Expense.
(** [splits] is [None] when the field is absent. *)
Record t : Type := mk {
  paidBy : string;
  amount : Q;
  splitType : string;
  splits : option (list Split.t)
}.
End Expense.

Module Balance.
Record t : Type := mk { id : string; name : string; balance : Q }.

Definition with_balance (f : Q -> Q) (b : t) : t :=
  mk (id b) (name b) (f (balance b)).

Definition member (b : t) : Member.t := Member.mk (id b) (name b).
End Balance.

Module Settlement.
(** [from] and [to] are the debtor and creditor objects; their callers
    read only the identity fields, which the loop never changes. *)
Record t : Type := mk { from : Member.t; to : Member.t; amount : Q }.
End Settlement.

(** ** The balance engine *)

Definition store : Type := JsObject.t Balance.t.

(** [memberBalances[k].balance = f(memberBalances[k].balance)]; reading
    [.balance] of a missing entry raises. *)
Definition modify_balance (f : Q -> Q) (memberBalances : store) (k : string)
  : result store :=
  match JsObject.get memberBalances k with
  | Some _ => Ok (JsObject.alter (Balance.with_balance f) memberBalances k)
  | None => TypeError
  end.

Definition init_balances (members : list Member.t) : store :=
  fold_left
    (fun memberBalances member =>
       JsObject.set memberBalances (Member.id member)
         (Balance.mk (Member.id member) (Member.name member) 0))
    members [].

(** [if (memberBalances[expense.paidBy]) memberBalances[expense.paidBy].balance += expense.amount] *)
Definition credit_payer (memberBalances : store) (expense : Expense.t)
  : result store :=
  match JsObject.get memberBalances (Expense.paidBy expense) with
  | Some _ =>
      modify_balance (fun b => b + Expense.amount expense)
        memberBalances (Expense.paidBy expense)
  | None => Ok memberBalances
  end.

(** The body of [expense.splits.forEach]. *)
Definition subtract_split (memberBalances : store) (split : Split.t)
  : result store :=
  match JsObject.get memberBalances (Split.memberId split) with
  | Some _ =>
      modify_balance (fun b => b - or_zero (Split.amount split))
        memberBalances (Split.memberId split)
  | None => Ok memberBalances
  end.

(** The body of [group.members.forEach] in the equal branch: no guard. *)
Definition subtract_share (sharePerMember : Q) (memberBalances : store)
  (member : Member.t) : result store :=
  modify_balance (fun b => b - sharePerMember) memberBalances (Member.id member).

(** [expense.splitType === 'unequal' && expense.splits?.length > 0] *)
Definition custom_splits (expense : Expense.t) : option (list Split.t) :=
  if (Expense.splitType expense =? "unequal")%string then
    match Expense.splits expense with
    | Some (s :: l) => Some (s :: l)
    | _ => None
    end
  else None.

(** [group.members.length] as a number. *)
Definition member_count (members : list Member.t) : Q :=
  inject_Z (Z.of_nat (List.length members)).

(** [expense.amount / group.members.length] *)
Definition share_per_member (members : list Member.t) (expense : Expense.t) : Q :=
  Expense.amount expense / member_count members.

Definition apply_split (members : list Member.t) (memberBalances : store)
  (expense : Expense.t) : result store :=
  match custom_splits expense with
  | Some splits => forEach subtract_split splits memberBalances
  | None =>
      forEach (subtract_share (share_per_member members expense))
        members memberBalances
  end.

(** The body of [group.expenses.forEach]. *)
Definition apply_expense (members : list Member.t) (memberBalances : store)
  (expense : Expense.t) : result store :=
  credited <- credit_payer memberBalances expense ;;
  apply_split members credited expense.

(** The store after [group.expenses.forEach]. *)
Definition ledger (members : list Member.t) (expenses : list Expense.t)
  : result store :=
  forEach (apply_expense members) expenses (init_balances members).

Definition computeBalances (members : list Member.t) (expenses : list Expense.t)
  : result (list Balance.t) :=
  match members with
  | [] => Ok []
  | _ :: _ =>
      memberBalances <- ledger members expenses ;;
      Ok (JsObject.values memberBalances)
  end.

(** ** The settlement planner *)

Record LoopState : Type := mkLoop {
  debtors : list Balance.t;
  creditors : list Balance.t;
  settlements : list Settlement.t
}.

(** One iteration of the [while] body, on the heads [debtor] and [creditor]. *)
Definition loop_body (debtor : Balance.t) (ds : list Balance.t)
  (creditor : Balance.t) (cs : list Balance.t) (out : list Settlement.t)
  : LoopState :=
  let amount := Qmin (- Balance.balance debtor) (Balance.balance creditor) in
  let out' :=
    out ++ [Settlement.mk (Balance.member debtor) (Balance.member creditor) amount] in
  let debtor' := Balance.with_balance (fun b => b + amount) debtor in
  let creditor' := Balance.with_balance (fun b => b - amount) creditor in
  mkLoop
    (if Qltb (Qabs (Balance.balance debtor')) tolerance then ds else debtor' :: ds)
    (if Qltb (Qabs (Balance.balance creditor')) tolerance then cs else creditor' :: cs)
    out'.

(** The loop condition and one turn of the loop: [None] when
    [debtors.length > 0 && creditors.length > 0] is false. *)
Definition loop_step (st : LoopState) : option LoopState :=
  match debtors st, creditors st with
  | debtor :: ds, creditor :: cs =>
      Some (loop_body debtor ds creditor cs (settlements st))
  | _, _ => None
  end.

(** The [while] loop; [None] when the fuel runs out before the condition
    turns false. *)
Fixpoint while_loop (fuel : nat) (st : LoopState) : option LoopState :=
  match loop_step st with
  | None => Some st
  | Some st' =>
      match fuel with
      | O => None
      | S fuel' => while_loop fuel' st'
      end
  end.

(** States the loop passes through. *)
Inductive reaches : LoopState -> LoopState -> Prop :=
| reaches_here : forall st, reaches st st
| reaches_next : forall st st' st'',
    loop_step st = Some st' -> reaches st' st'' -> reaches st st''.

(** [{ ...m, balance: m.balance }] *)
Definition copy_balance (m : Balance.t) : Balance.t :=
  Balance.mk (Balance.id m) (Balance.name m) (Balance.balance m).

Definition initial_debtors (balances : list Balance.t) : list Balance.t :=
  js_sort (fun a b => Balance.balance a - Balance.balance b)
    (map copy_balance (filter (fun m => Qltb (Balance.balance m) 0) balances)).

Definition initial_creditors (balances : list Balance.t) : list Balance.t :=
  js_sort (fun a b => Balance.balance b - Balance.balance a)
    (map copy_balance (filter (fun m => Qltb 0 (Balance.balance m)) balances)).

Definition initial_state (balances : list Balance.t) : LoopState :=
  mkLoop (initial_debtors balances) (initial_creditors balances) [].

Definition loop_measure (st : LoopState) : nat :=
  (List.length (debtors st) + List.length (creditors st))%nat.

Definition calculateSettlements (balances : list Balance.t) : list Settlement.t :=
  let st := initial_state balances in
  match while_loop (loop_measure st) st with
  | Some final => settlements final
  | None => []
  end.

(** ** Vocabulary of the properties *)

Definition member_ids (members : list Member.t) : list string :=
  map Member.id members.

Definition balance_ids (balances : list Balance.t) : list string :=
  map Balance.id balances.

Definition sum_balances (balances : list Balance.t) : Q :=
  fold_right (fun b acc => Balance.balance b + acc) 0 balances.

Definition store_sum (memberBalances : store) : Q :=
  sum_balances (map snd memberBalances).

(** What the entries of [splits] subtract from current members. *)
Definition known_split_total (members : list Member.t) (splits : list Split.t) : Q :=
  fold_right
    (fun s acc =>
       if in_dec string_dec (Split.memberId s) (member_ids members)
       then or_zero (Split.amount s) + acc else acc)
    0 splits.

Definition payer_known (members : list Member.t) (expense : Expense.t) : Prop :=
  In (Expense.paidBy expense) (member_ids members).

(** An expense handled by the custom branch subtracts what it credits. *)
Definition splits_cover (members : list Member.t) (expense : Expense.t) : Prop :=
  match custom_splits expense with
  | Some splits => known_split_total members splits == Expense.amount expense
  | None => True
  end.


(** [balance := f balance] on the member [k] of a balance sheet. *)
Definition adjust (k : string) (f : Q -> Q) (balances : list Balance.t)
  : list Balance.t :=
  map (fun b => if (Balance.id b =? k)%string then Balance.with_balance f b else b)
    balances.

(** A payment as the loop books it: [debtor.balance += amount] and
    [creditor.balance -= amount]. *)
Definition pay (balances : list Balance.t) (s : Settlement.t) : list Balance.t :=
  adjust (Member.id (Settlement.to s)) (fun b => b - Settlement.amount s)
    (adjust (Member.id (Settlement.from s)) (fun b => b + Settlement.amount s)
       balances).

(** A payment in the direction the specification words it: the amount is
    subtracted from [from] and added to [to]. *)
Definition pay_as_stated (balances : list Balance.t) (s : Settlement.t)
  : list Balance.t :=
  adjust (Member.id (Settlement.to s)) (fun b => b + Settlement.amount s)
    (adjust (Member.id (Settlement.from s)) (fun b => b - Settlement.amount s)
       balances).

Definition within_tolerance (b : Balance.t) : Prop :=
  Qabs (Balance.balance b) <= tolerance.

Definition is_debtor (b : Balance.t) : Prop := Balance.balance b < 0.
Definition is_creditor (b : Balance.t) : Prop := 0 < Balance.balance b.

(** The sample group of the specification. *)
Definition alice : Member.t := Member.mk "a" "A".
Definition bob : Member.t := Member.mk "b" "B".
Definition carol : Member.t := Member.mk "c" "C".
Definition dinner : Expense.t := Expense.mk "a" 90 "equal" (Some []).


(** A balance that is not zero but closer to zero than the tolerance. *)
Definition near_zero (b : Balance.t) : Prop :=
  0 < Qabs (Balance.balance b) /\ Qabs (Balance.balance b) < tolerance.

(** The tolerance policy as the specification words it: such a balance is in
    neither list when the loop starts... *)
Definition near_zero_filtered (balances : list Balance.t) : Prop :=
  forall b, In b balances -> near_zero b ->
    ~ In (copy_balance b) (initial_debtors balances)
    /\ ~ In (copy_balance b) (initial_creditors balances).

(** ... and so takes no part in the plan. *)
Definition near_zero_excluded (balances : list Balance.t) : Prop :=
  forall b, In b balances -> near_zero b ->
    forall s, In s (calculateSettlements balances) ->
      Settlement.from s <> Balance.member b /\ Settlement.to s <> Balance.member b.

Definition party_of (balances : list Balance.t) (side : Balance.t -> Prop)
  (m : Member.t) : Prop :=
  exists b, In b balances /\ Balance.member b = m /\ side b.

(** Two members half a cent apart. *)
Definition half_cent_sheet : list Balance.t :=
  [Balance.mk "a" "A" (- (5 # 1000)); Balance.mk "b" "B" (5 # 1000)].

(** The balance sheet after the payments of a plan, booked in order. *)
Definition after_plan (balances : list Balance.t) (plan : list Settlement.t)
  : list Balance.t :=
  fold_left pay plan balances.

(** The property of the specification: payments booked as it words them
    leave every member within the tolerance. *)
Definition settled_as_stated (balances : list Balance.t) : Prop :=
  Forall within_tolerance
    (fold_left pay_as_stated (calculateSettlements balances) balances).

(** The same with the payments booked as the loop books them. *)
Definition settled_in_full (balances : list Balance.t) : Prop :=
  Forall within_tolerance (after_plan balances (calculateSettlements balances)).

(** The balances of the sample group after [dinner]. *)
Definition dinner_sheet : list Balance.t :=
  [Balance.mk "a" "A" 60; Balance.mk "b" "B" (- 30); Balance.mk "c" "C" (- 30)].

(** A sheet that sums to zero, with two debts just above two credits. *)
Definition residue_sheet : list Balance.t :=
  [Balance.mk "a" "A" (- (10009 # 1000)); Balance.mk "b" "B" (- (10009 # 1000));
   Balance.mk "c" "C" 10; Balance.mk "d" "D" 10; Balance.mk "e" "E" (18 # 1000)].


(** The loop invariant that ties the two lists to the input sheet with the
    entries emitted so far booked on it: the members still listed are
    distinct, debtors are negative and creditors positive, the listed
    balances are [good], a listed member has the same balance in the list and
    on the sheet, and a member no longer listed is [settled]. *)
Definition books_agree (good settled : Q -> Prop) (balances : list Balance.t)
  (st : LoopState) : Prop :=
  let sheet := after_plan balances (settlements st) in
  let listed := debtors st ++ creditors st in
  NoDup (balance_ids listed)
  /\ Forall is_debtor (debtors st)
  /\ Forall is_creditor (creditors st)
  /\ (forall x, In x listed -> good (Balance.balance x))
  /\ (forall b x, In b sheet -> In x listed -> Balance.id b = Balance.id x ->
                  Balance.balance b == Balance.balance x)
  /\ (forall b, In b sheet ->
                In (Balance.id b) (balance_ids listed)
                \/ settled (Balance.balance b)).

(** What booking keeps of the sheet: its members, among them every listed
    one, and its total. *)
Definition books_balance (balances : list Balance.t) (st : LoopState) : Prop :=
  let sheet := after_plan balances (settlements st) in
  balance_ids sheet = balance_ids balances
  /\ (forall x, In x (debtors st ++ creditors st) ->
                In (Balance.id x) (balance_ids balances))
  /\ sum_balances sheet == sum_balances balances.

(** The members a store stands for, with their keys: what no step of the
    balance engine changes. *)
Definition store_members (memberBalances : store) : list (string * Member.t) :=
  map (fun e => (fst e, Balance.member (snd e))) memberBalances.

(** The entry that [init_balances] writes for a member. *)
Definition fresh_entry (member : Member.t) : string * Balance.t :=
  (Member.id member, Balance.mk (Member.id member) (Member.name member) 0).

(** The keys of a store are the ids of the members. *)
Definition keys_cover (members : list Member.t) (memberBalances : store) : Prop :=
  forall k, In k (JsObject.keys memberBalances) <-> In k (member_ids members).



(** One balance per member, in the order of the members. *)
Definition in_member_order (members : list Member.t) (expenses : list Expense.t)
  : Prop :=
  exists balances, computeBalances members expenses = Ok balances
                   /\ map Balance.member balances = members.




(** Expenses that produce [residue_sheet]: C and D each advance 10 for A and
    for B, and E advances 0.018 shared by A and B. *)
Definition residue_group : list Member.t :=
  [Member.mk "a" "A"; Member.mk "b" "B"; Member.mk "c" "C"; Member.mk "d" "D";
   Member.mk "e" "E"].

Definition residue_expenses : list Expense.t :=
  [Expense.mk "c" 10 "unequal" (Some [Split.mk "a" 10]);
   Expense.mk "d" 10 "unequal" (Some [Split.mk "b" 10]);
   Expense.mk "e" (18 # 1000) "unequal"
     (Some [Split.mk "a" (9 # 1000); Split.mk "b" (9 # 1000)])].

(** [q] lies between [b0] and zero, on the side of [b0]. *)
Definition between_zero (b0 q : Q) : Prop :=
  (b0 <= q /\ q <= 0) \/ (0 <= q /\ q <= b0).

(** No member of [sheet] has moved past zero or away from it, compared with
    the same member on [balances]. *)
Definition no_overshoot (balances sheet : list Balance.t) : Prop :=
  forall b0 b, In b0 balances -> In b sheet -> Balance.id b = Balance.id b0 ->
               between_zero (Balance.balance b0) (Balance.balance b).

(** The balance stored under [k], zero when there is none. *)
Definition balance_at (memberBalances : store) (k : string) : Q :=
  match JsObject.get memberBalances k with
  | Some b => Balance.balance b
  | None => 0
  end.

(** What [expense] credits to the member [k]: its amount, if [k] paid it. *)
Definition paid_by (k : string) (expense : Expense.t) : Q :=
  if (Expense.paidBy expense =? k)%string then Expense.amount expense else 0.

(** What the entries of [splits] that name [k] charge together. *)
Definition split_charge (k : string) (splits : list Split.t) : Q :=
  fold_right
    (fun s acc =>
       if (Split.memberId s =? k)%string then or_zero (Split.amount s) + acc
       else acc)
    0 splits.

(** What [expense] charges to the member [k] of the group. *)
Definition owed_by (members : list Member.t) (k : string) (expense : Expense.t)
  : Q :=
  match custom_splits expense with
  | Some splits => split_charge k splits
  | None => share_per_member members expense
  end.

(** Credits minus charges of [k] over all the expenses. *)
Definition net_of (members : list Member.t) (k : string)
  (expenses : list Expense.t) : Q :=
  fold_right (fun e acc => paid_by k e - owed_by members k e + acc) 0 expenses.



(** ** The screens around the engine *)

Module Logged.
(** An expense as a group stores it: the fields the balance engine reads,
    and those it does not.  [category] is [None] when the field is absent. *)
Record t : Type := mk {
  expense : Expense.t;
  description : string;
  category : option string
}.
End Logged.

Module Group.
(** [members] and [expenses] are [None] when the field is absent. *)
Record t : Type := mk {
  members : option (list Member.t);
  expenses : option (list Logged.t)
}.
End Group.

(** [xs || []] *)
Definition or_empty {A : Type} (xs : option (list A)) : list A :=
  match xs with
  | Some l => l
  | None => []
  end.

Module Share.
Record t : Type := mk { description : string; amount : Q }.
End Share.





(** [totalExpenses] in [GroupDetail] (lines 1066-1069). *)
Definition totalExpenses (group : Group.t) : Q :=
  fold_left (fun sum logged => sum + Expense.amount (Logged.expense logged))
    (or_empty (Group.expenses group)) 0.











(** ** The expense form of [GroupDetail] *)

Module DraftSplit.
(** A row of the custom amounts: [amount] is the text of the input. *)
Record t : Type := mk { memberId : string; amount : string }.
End DraftSplit.

Module Draft.
(** The state [newExpense]; [amount] is the text of the input. *)
Record t : Type := mk {
  description : string;
  amount : string;
  paidBy : string;
  splitType : string;
  splits : list DraftSplit.t;
  category : string
}.
End Draft.

(** The value [newExpense] is set to at first and after a submit, for a
    current user whose [id || ''] is [payer] (lines 975, 1173). *)
Definition empty_draft (payer : string) : Draft.t :=
  Draft.mk "" "" payer "equal" [] "Diğer".

(** [handleInputChange] (lines 1106-1116), for the event of an input called
    [name] with the value [value]. *)
Definition handleInputChange (members : option (list Member.t))
  (name value : string) (prev : Draft.t) : Draft.t :=
  if (name =? "splitType")%string then
    let newSplits :=
      if (value =? "unequal")%string
      then map (fun m => DraftSplit.mk (Member.id m) "") (or_empty members)
      else [] in
    Draft.mk (Draft.description prev) (Draft.amount prev) (Draft.paidBy prev)
      value newSplits (Draft.category prev)
  else if (name =? "description")%string then
    Draft.mk value (Draft.amount prev) (Draft.paidBy prev)
      (Draft.splitType prev) (Draft.splits prev) (Draft.category prev)
  else if (name =? "amount")%string then
    Draft.mk (Draft.description prev) value (Draft.paidBy prev)
      (Draft.splitType prev) (Draft.splits prev) (Draft.category prev)
  else if (name =? "paidBy")%string then
    Draft.mk (Draft.description prev) (Draft.amount prev) value
      (Draft.splitType prev) (Draft.splits prev) (Draft.category prev)
  else if (name =? "category")%string then
    Draft.mk (Draft.description prev) (Draft.amount prev) (Draft.paidBy prev)
      (Draft.splitType prev) (Draft.splits prev) value
  else prev.

(** [handleCustomSplitChange] (lines 1118-1125). *)
Definition handleCustomSplitChange (memberId value : string) (prev : Draft.t)
  : Draft.t :=
  let newSplits :=
    map (fun s =>
           if (DraftSplit.memberId s =? memberId)%string
           then DraftSplit.mk (DraftSplit.memberId s) value else s)
      (Draft.splits prev) in
  Draft.mk (Draft.description prev) (Draft.amount prev) (Draft.paidBy prev)
    (Draft.splitType prev) newSplits (Draft.category prev).

(** The two messages of [handleSubmit]: 'Lütfen tüm alanları doğru doldurun.'
    and 'Kişiye özel tutarların toplamı, harcama tutarına eşit olmalıdır.' *)
Inductive FormError : Type :=
| FillAllFields
| SplitsMustAddUp.

Section Form.
(** [parseFloat], with [None] for [NaN]. *)
Variable parseFloat : string -> option Q.

(** [parseFloat(s) || 0] *)
Definition number_or_zero (s : string) : Q :=
  match parseFloat s with
  | Some q => or_zero q
  | None => 0
  end.

(** [customSplitTotal] (lines 1140-1143). *)
Definition customSplitTotal (newExpense : Draft.t) : Q :=
  if negb (Draft.splitType newExpense =? "unequal")%string then 0
  else
    fold_left (fun sum split => sum + number_or_zero (DraftSplit.amount split))
      (Draft.splits newExpense) 0.

(** [remainingToSplit] (lines 1145-1148). *)
Definition remainingToSplit (newExpense : Draft.t) : Q :=
  let totalAmount := number_or_zero (Draft.amount newExpense) in
  totalAmount - customSplitTotal newExpense.

(** [newExpense.splitType === 'unequal' && Math.abs(remainingToSplit) > 0.01] *)
Definition splits_off (newExpense : Draft.t) : bool :=
  (Draft.splitType newExpense =? "unequal")%string
  && Qltb tolerance (Qabs (remainingToSplit newExpense)).

(** [handleSubmit] (lines 1150-1175): the error shown, or the expense handed
    to [onAddExpense]. *)
Definition handleSubmit (newExpense : Draft.t) : FormError + Logged.t :=
  match parseFloat (Draft.amount newExpense) with
  | None => inl FillAllFields
  | Some amount =>
      if (Draft.description newExpense =? "")%string
         || Qeq_bool amount 0 || Qle_bool amount 0
         || (Draft.paidBy newExpense =? "")%string
      then inl FillAllFields
      else if splits_off newExpense then inl SplitsMustAddUp
      else
        inr (Logged.mk
               (Expense.mk (Draft.paidBy newExpense) amount
                  (Draft.splitType newExpense)
                  (Some
                     (if (Draft.splitType newExpense =? "unequal")%string
                      then map (fun s =>
                                  Split.mk (DraftSplit.memberId s)
                                    (number_or_zero (DraftSplit.amount s)))
                             (Draft.splits newExpense)
                      else [])))
               (Draft.description newExpense)
               (Some (Draft.category newExpense)))
  end.

(** [isFormInvalid] (lines 1177-1181), which disables the submit button. *)
Definition isFormInvalid (newExpense : Draft.t) : bool :=
  (Draft.description newExpense =? "")%string
  || (Draft.amount newExpense =? "")%string
  || match parseFloat (Draft.amount newExpense) with
     | Some amount => Qle_bool amount 0
     | None => false
     end
  || (Draft.paidBy newExpense =? "")%string
  || splits_off newExpense.
End Form.

(** The drafts the form of a group can hold: the empty draft, and what the
    two change handlers make of a draft. *)
Inductive draft_of (members : option (list Member.t)) : Draft.t -> Prop :=
| draft_empty : forall payer, draft_of members (empty_draft payer)
| draft_input : forall name value d,
    draft_of members d -> draft_of members (handleInputChange members name value d)
| draft_split : forall memberId value d,
    draft_of members d ->
    draft_of members (handleCustomSplitChange memberId value d).

(** A toy [parseFloat] for the sample draft. *)
Definition sample_parseFloat (s : string) : option Q :=
  if (s =? "100")%string then Some 100
  else if (s =? "30")%string then Some 30
  else if (s =? "70")%string then Some 70
  else None.

(** The sample draft: 100 paid by A, 30 for A and 70 for B. *)
Definition sample_draft : Draft.t :=
  handleCustomSplitChange "b" "70"
    (handleCustomSplitChange "a" "30"
       (handleInputChange (Some [alice; bob]) "splitType" "unequal"
          (handleInputChange (Some [alice; bob]) "amount" "100"
             (handleInputChange (Some [alice; bob]) "description" "taxi"
                (empty_draft "a"))))).



(** ** Creating a group *)

(** [String(n)] for a number that is a non-negative integer, as a template
    literal prints it: its decimal digits. *)
Definition number_to_string (n : N) : string :=
  NilEmpty.string_of_uint (N.to_uint n).

(** [xs.map((x, index) => f(x, index))], counting from [index]. *)
Fixpoint map_from {A B : Type} (f : A -> nat -> B) (index : nat) (xs : list A)
  : list B :=
  match xs with
  | [] => []
  | x :: xs' => f x index :: map_from f (S index) xs'
  end.

Module User.
Record t : Type := mk { id : string; name : string }.
End User.

(** The user that [handleLogin] makes when [Date.now()] reads [now]
    (lines 608-615). *)
Definition handleLogin (now : N) : User.t :=
  User.mk ("local_user_" ++ number_to_string now) "Demo Kullanıcı".

Module Row.
(** A row of the members editor; its id is a number. *)
Record t : Type := mk { id : nat; name : string }.
End Row.

Module Editor.
(** The state [members], [nextMemberId] of [CreateGroupScreen]. *)
Record t : Type := mk { members : list Row.t; nextMemberId : nat }.
End Editor.

Module NewGroup.
(** What the form hands to [onCreateGroup]. *)
Record t : Type := mk {
  name : string;
  description : string;
  members : list Member.t
}.
End NewGroup.

Module CreateGroupScreen.

(** The initial state (lines 849-850). *)
Definition initial : Editor.t := Editor.mk [Row.mk 1 ""] 2.

Definition handleMemberNameChange (id : nat) (newName : string) (st : Editor.t)
  : Editor.t :=
  Editor.mk
    (map (fun m => if (Row.id m =? id)%nat then Row.mk (Row.id m) newName else m)
       (Editor.members st))
    (Editor.nextMemberId st).

Definition handleAddMember (st : Editor.t) : Editor.t :=
  Editor.mk (Editor.members st ++ [Row.mk (Editor.nextMemberId st) ""])
    (Editor.nextMemberId st + 1).

Definition handleRemoveMember (id : nat) (st : Editor.t) : Editor.t :=
  Editor.mk (filter (fun m => negb (Row.id m =? id)%nat) (Editor.members st))
    (Editor.nextMemberId st).

(** The states the editor can be in: each handler runs on the state of the
    latest render. *)
Inductive state : Editor.t -> Prop :=
| state_initial : state initial
| state_rename : forall id newName st,
    state st -> state (handleMemberNameChange id newName st)
| state_add : forall st, state st -> state (handleAddMember st)
| state_remove : forall id st, state st -> state (handleRemoveMember id st).

Section Submit.
(** [String.prototype.trim], and the reading of [Date.now()] when the
    callback of [map] runs for the element [index]. *)
Variable trim : string -> string.
Variable now : nat -> N.

Definition validMembers (st : Editor.t) : list Member.t :=
  map_from
    (fun m index =>
       Member.mk ("temp_" ++ number_to_string (now index + N.of_nat index))
         (trim (Row.name m)))
    0
    (filter (fun m => negb (trim (Row.name m) =? "")%string) (Editor.members st)).

(** [handleSubmit] (lines 865-880): the data handed to [onCreateGroup], or
    [None] when the alert is shown instead. *)
Definition handleSubmit (groupName description : string) (st : Editor.t)
  : option NewGroup.t :=
  let members := validMembers st in
  if (trim groupName =? "")%string then None
  else Some (NewGroup.mk groupName description members).
End Submit.

End CreateGroupScreen.

(** [handleCreateGroup] (lines 683-703): the group appended to [groups],
    with the fields the engine reads; [None] when there is no user. *)
Definition handleCreateGroup (trim toLowerCase : string -> string)
  (user : option User.t) (newGroupData : NewGroup.t) : option Group.t :=
  match user with
  | None => None
  | Some user =>
      let otherMembers :=
        filter
          (fun m =>
             negb (toLowerCase (trim (Member.name m))
                   =? toLowerCase (trim (User.name user)))%string)
          (NewGroup.members newGroupData) in
      let membersWithUser :=
        Member.mk (User.id user) (User.name user) :: otherMembers in
      Some (Group.mk (Some membersWithUser) (Some []))
  end.


(** ** Adding an expense to a group *)

Module Stored.
(** A group of the list [groups] of [App], under its id. *)
Record t : Type := mk { id : string; group : Group.t }.
End Stored.

(** The update of [groups] by [handleAddExpense] (lines 705-716); a missing
    or empty [groupId] and a missing user leave the list as it is. *)
Definition handleAddExpense (user : option User.t) (groupId : option string)
  (newExpense : Logged.t) (groups : list Stored.t) : list Stored.t :=
  match user, groupId with
  | Some _, Some groupId =>
      if (groupId =? "")%string then groups
      else
        map
          (fun group =>
             if (Stored.id group =? groupId)%string
             then
               let updatedExpenses :=
                 or_empty (Group.expenses (Stored.group group)) ++ [newExpense] in
               Stored.mk (Stored.id group)
                 (Group.mk (Group.members (Stored.group group))
                    (Some updatedExpenses))
             else group)
          groups
  | _, _ => groups
  end.

(** [selectedGroup] (lines 722-725). *)
Definition selectedGroup (groups : list Stored.t) (selectedGroupId : string)
  : option Stored.t :=
  find (fun g => (Stored.id g =? selectedGroupId)%string) groups.

(** The balances that [GroupDetail] and [SettlementScreen] show for a group. *)
Definition group_balances (group : Group.t) : result (list Balance.t) :=
  computeBalances (or_empty (Group.members group))
    (map Logged.expense (or_empty (Group.expenses group))).



(** * Properties *)

(** ** Rationals *)

Lemma Qltb_lt (x y : Q) : Qltb x y = true <-> x < y.
Proof.
  unfold Qltb. rewrite negb_true_iff. split; intro H.
  - apply Qnot_le_lt. intro Hle. apply Qle_bool_iff in Hle. congruence.
  - destruct (Qle_bool y x) eqn:E; [|reflexivity].
    apply Qle_bool_iff in E. exfalso. apply (Qlt_not_le _ _ H E).
Qed.

Lemma Qltb_ge (x y : Q) : Qltb x y = false <-> y <= x.
Proof.
  unfold Qltb. rewrite negb_false_iff. apply Qle_bool_iff.
Qed.


Lemma Qabs_lt_tol (x : Q) : Qabs x < tolerance <-> - tolerance < x /\ x < tolerance.
Proof. apply Qabs_Qlt_condition. Qed.

Lemma Qmin_cases (x y : Q) :
  (x <= y /\ Qmin x y == x) \/ (y <= x /\ Qmin x y == y).
Proof.
  destruct (Q.min_spec x y) as [[H1 H2] | [H1 H2]].
  - left. split; [apply Qlt_le_weak; exact H1 | exact H2].
  - right. split; assumption.
Qed.

(** One of the two heads is driven to zero by the transfer. *)
Lemma transfer_settles_one (d c : Q) :
  Qltb (Qabs (d + Qmin (- d) c)) tolerance = true
  \/ Qltb (Qabs (c - Qmin (- d) c)) tolerance = true.
Proof.
  destruct (Qmin_cases (- d) c) as [[H1 H2] | [H1 H2]]; [left | right];
    apply Qltb_lt, Qabs_lt_tol; unfold tolerance; split; lra.
Qed.

(** ** Sorting *)

Section SortFacts.
Context {A : Type} (cmp : A -> A -> Q).

Lemma sort_insert_perm (x : A) (l : list A) :
  Permutation (x :: l) (sort_insert cmp x l).
Proof.
  induction l as [|y l IH]; simpl.
  - apply Permutation_refl.
  - destruct (Qle_bool (cmp x y) 0).
    + apply Permutation_refl.
    + eapply perm_trans; [apply perm_swap|]. apply perm_skip. exact IH.
Qed.

Lemma js_sort_perm (l : list A) : Permutation l (js_sort cmp l).
Proof.
  induction l as [|x l IH]; simpl.
  - apply perm_nil.
  - eapply perm_trans; [apply perm_skip; exact IH|]. apply sort_insert_perm.
Qed.

Lemma js_sort_In (l : list A) (x : A) : In x (js_sort cmp l) <-> In x l.
Proof.
  split; apply Permutation_in;
    [apply Permutation_sym|]; apply js_sort_perm.
Qed.

End SortFacts.

(** ** The matching loop *)

Lemma reaches_invariant (I : LoopState -> Prop) :
  (forall st st', I st -> loop_step st = Some st' -> I st') ->
  forall st st', reaches st st' -> I st -> I st'.
Proof.
  intros Hstep st st' H.
  induction H as [st | st st' st'' E _ IH]; intro HI.
  - exact HI.
  - apply IH. exact (Hstep _ _ HI E).
Qed.

Lemma while_loop_reaches (fuel : nat) :
  forall st st', while_loop fuel st = Some st' ->
                 reaches st st' /\ loop_step st' = None.
Proof.
  induction fuel as [|fuel IH]; intros st st' H; simpl in H;
    destruct (loop_step st) as [next|] eqn:E.
  - discriminate.
  - injection H as <-. split; [apply reaches_here | exact E].
  - destruct (IH _ _ H) as [Hr Hn]. split; [|exact Hn].
    eapply reaches_next; eassumption.
  - injection H as <-. split; [apply reaches_here | exact E].
Qed.

Lemma loop_step_None (st : LoopState) :
  loop_step st = None -> debtors st = [] \/ creditors st = [].
Proof.
  unfold loop_step. destruct (debtors st); [now left|].
  destruct (creditors st); [now right | discriminate].
Qed.

Lemma loop_step_Some (st st' : LoopState) :
  loop_step st = Some st' ->
  exists d ds c cs,
    debtors st = d :: ds /\ creditors st = c :: cs
    /\ st' = loop_body d ds c cs (settlements st).
Proof.
  unfold loop_step. destruct (debtors st) as [|d ds]; [discriminate|].
  destruct (creditors st) as [|c cs]; [discriminate|].
  intro H. injection H as <-. exists d, ds, c, cs. auto.
Qed.

Lemma loop_body_measure d ds c cs out :
  (loop_measure (loop_body d ds c cs out) < S (List.length ds) + S (List.length cs))%nat.
Proof.
  unfold loop_measure, loop_body; cbn [debtors creditors Balance.with_balance Balance.balance].
  destruct (transfer_settles_one (Balance.balance d) (Balance.balance c)) as [H | H];
    rewrite H; clear H; destruct (Qltb _ tolerance); cbn [List.length]; lia.
Qed.

Lemma loop_step_measure (st st' : LoopState) :
  loop_step st = Some st' -> (loop_measure st' < loop_measure st)%nat.
Proof.
  intro H. destruct (loop_step_Some _ _ H) as (d & ds & c & cs & Hd & Hc & ->).
  unfold loop_measure at 2. rewrite Hd, Hc. apply loop_body_measure.
Qed.

Lemma while_loop_terminates (fuel : nat) :
  forall st, (loop_measure st <= fuel)%nat -> exists st', while_loop fuel st = Some st'.
Proof.
  induction fuel as [|fuel IH]; intros st Hm; simpl;
    destruct (loop_step st) as [next|] eqn:E; eauto.
  - apply loop_step_measure in E. lia.
  - apply IH. apply loop_step_measure in E. lia.
Qed.

Lemma calculateSettlements_final (balances : list Balance.t) :
  exists final,
    while_loop (loop_measure (initial_state balances)) (initial_state balances)
      = Some final
    /\ calculateSettlements balances = settlements final
    /\ reaches (initial_state balances) final
    /\ (debtors final = [] \/ creditors final = []).
Proof.
  destruct (while_loop_terminates _ (initial_state balances) (le_n _)) as [final H].
  exists final. unfold calculateSettlements. rewrite H.
  destruct (while_loop_reaches _ _ _ H) as [Hr Hn].
  repeat split; auto using loop_step_None.
Qed.

(** Signs of the heads and of the transfer. *)
Lemma transfer_pos (d c : Q) : d < 0 -> 0 < c -> 0 < Qmin (- d) c.
Proof. intros Hd Hc. destruct (Qmin_cases (- d) c) as [[_ H] | [_ H]]; lra. Qed.

Lemma kept_debtor (d c : Q) :
  Qltb (Qabs (d + Qmin (- d) c)) tolerance = false ->
  d + Qmin (- d) c <= - tolerance.
Proof.
  intro H. apply Qltb_ge in H.
  assert (Hle : d + Qmin (- d) c <= 0)
    by (pose proof (Q.le_min_l (- d) c); lra).
  pose proof (Qabs_neg _ Hle). lra.
Qed.

Lemma kept_creditor (d c : Q) :
  Qltb (Qabs (c - Qmin (- d) c)) tolerance = false ->
  tolerance <= c - Qmin (- d) c.
Proof.
  intro H. apply Qltb_ge in H.
  assert (Hle : 0 <= c - Qmin (- d) c)
    by (pose proof (Q.le_min_r (- d) c); lra).
  pose proof (Qabs_pos _ Hle). lra.
Qed.

Lemma loop_body_signs d ds c cs out :
  Forall is_debtor (d :: ds) -> Forall is_creditor (c :: cs) ->
  Forall is_debtor (debtors (loop_body d ds c cs out))
  /\ Forall is_creditor (creditors (loop_body d ds c cs out)).
Proof.
  intros Hd Hc. inversion_clear Hd as [|? ? Hd0 Hds].
  inversion_clear Hc as [|? ? Hc0 Hcs].
  unfold loop_body; cbn [debtors creditors Balance.with_balance Balance.balance].
  split.
  - destruct (Qltb _ tolerance) eqn:E; [exact Hds|].
    constructor; [|exact Hds]. apply kept_debtor in E.
    unfold is_debtor, tolerance in *.
    cbn [Balance.balance Balance.with_balance]. lra.
  - destruct (Qltb (Qabs (Balance.balance c - _)) tolerance) eqn:E; [exact Hcs|].
    constructor; [|exact Hcs]. apply kept_creditor in E.
    unfold is_creditor, tolerance in *.
    cbn [Balance.balance Balance.with_balance]. lra.
Qed.

Lemma initial_debtors_In (balances : list Balance.t) (d : Balance.t) :
  In d (initial_debtors balances) <->
  exists b, In b balances /\ Balance.balance b < 0 /\ d = copy_balance b.
Proof.
  unfold initial_debtors. rewrite js_sort_In, in_map_iff. split.
  - intros (b & <- & Hb). apply filter_In in Hb. destruct Hb as [Hb Hlt].
    apply Qltb_lt in Hlt. eauto.
  - intros (b & Hb & Hlt & ->). exists b. split; [reflexivity|].
    apply filter_In. split; [exact Hb | apply Qltb_lt; exact Hlt].
Qed.

Lemma initial_creditors_In (balances : list Balance.t) (c : Balance.t) :
  In c (initial_creditors balances) <->
  exists b, In b balances /\ 0 < Balance.balance b /\ c = copy_balance b.
Proof.
  unfold initial_creditors. rewrite js_sort_In, in_map_iff. split.
  - intros (b & <- & Hb). apply filter_In in Hb. destruct Hb as [Hb Hlt].
    apply Qltb_lt in Hlt. eauto.
  - intros (b & Hb & Hlt & ->). exists b. split; [reflexivity|].
    apply filter_In. split; [exact Hb | apply Qltb_lt; exact Hlt].
Qed.

Lemma initial_signs (balances : list Balance.t) :
  Forall is_debtor (initial_debtors balances)
  /\ Forall is_creditor (initial_creditors balances).
Proof.
  split; apply Forall_forall; intros x Hx.
  - apply initial_debtors_In in Hx. destruct Hx as (b & _ & Hlt & ->). exact Hlt.
  - apply initial_creditors_In in Hx. destruct Hx as (b & _ & Hlt & ->). exact Hlt.
Qed.






(** ** Counting the entries *)





(** ** Who takes part in the plan *)

Lemma reaches_parties (balances : list Balance.t) (st : LoopState) :
  reaches (initial_state balances) st ->
  Forall (fun d => party_of balances is_debtor (Balance.member d)) (debtors st)
  /\ Forall (fun c => party_of balances is_creditor (Balance.member c)) (creditors st)
  /\ Forall (fun s => party_of balances is_debtor (Settlement.from s)
                      /\ party_of balances is_creditor (Settlement.to s))
       (settlements st).
Proof.
  intro H.
  refine (reaches_invariant
            (fun st =>
               Forall (fun d => party_of balances is_debtor (Balance.member d))
                 (debtors st)
               /\ Forall (fun c => party_of balances is_creditor (Balance.member c))
                    (creditors st)
               /\ Forall (fun s => party_of balances is_debtor (Settlement.from s)
                                   /\ party_of balances is_creditor (Settlement.to s))
                    (settlements st))
            _ _ _ H _).
  - clear. intros st st' (Hd & Hc & Hs) E.
    destruct (loop_step_Some _ _ E) as (d & ds & c & cs & Ed & Ec & ->).
    rewrite Ed in Hd. rewrite Ec in Hc.
    inversion_clear Hd as [|? ? Hd0 Hds]. inversion_clear Hc as [|? ? Hc0 Hcs].
    unfold loop_body; cbn [debtors creditors settlements]. repeat split.
    + destruct (Qltb _ tolerance); [exact Hds|]. constructor; assumption.
    + destruct (Qltb (Qabs (Balance.balance (Balance.with_balance _ c))) tolerance);
        [exact Hcs|]. constructor; assumption.
    + apply Forall_app. split; [exact Hs|]. constructor; [|constructor].
      cbn [Settlement.from Settlement.to]. split; assumption.
  - cbn [initial_state debtors creditors settlements]. repeat split.
    + apply Forall_forall. intros d Hd. apply initial_debtors_In in Hd.
      destruct Hd as (b & Hb & Hlt & ->). exists b. repeat split; assumption.
    + apply Forall_forall. intros c Hc. apply initial_creditors_In in Hc.
      destruct Hc as (b & Hb & Hlt & ->). exists b. repeat split; assumption.
    + constructor.
Qed.

(** C2, as the code has it: before the loop only the balances equal to zero
    are left out; the debtors are the copies of all the balances below zero
    and the creditors the copies of all those above zero, however small (the
    tolerance is applied after a transfer only).  Hence the [from] of every
    entry is a member whose input balance is negative and the [to] a member
    whose input balance is positive. *)
Theorem parties_are_debtors_and_creditors (balances : list Balance.t) :
  (forall d, In d (initial_debtors balances) <->
             exists b, In b balances /\ Balance.balance b < 0 /\ d = copy_balance b)
  /\ (forall c, In c (initial_creditors balances) <->
                exists b, In b balances /\ 0 < Balance.balance b /\ c = copy_balance b)
  /\ Forall (fun s => party_of balances is_debtor (Settlement.from s)
                      /\ party_of balances is_creditor (Settlement.to s))
       (calculateSettlements balances).
Proof.
  split; [apply initial_debtors_In|]. split; [apply initial_creditors_In|].
  destruct (calculateSettlements_final balances) as (final & _ & -> & Hr & _).
  apply (reaches_parties _ _ Hr).
Qed.

(** C2 as stated fails: two members half a cent apart are both within the
    tolerance; they are listed as debtor and creditor, and the plan has the
    one pay the other. *)
Lemma near_zero_not_excluded :
  ~ near_zero_filtered half_cent_sheet /\ ~ near_zero_excluded half_cent_sheet.
Proof.
  assert (Ha : In (Balance.mk "a" "A" (- (5 # 1000))) half_cent_sheet)
    by (left; reflexivity).
  assert (Hz : near_zero (Balance.mk "a" "A" (- (5 # 1000))))
    by (split; reflexivity).
  split; intro H.
  - destruct (H _ Ha Hz) as [Hd _]. apply Hd. vm_compute. left. reflexivity.
  - assert (Hs : In (Settlement.mk (Member.mk "a" "A") (Member.mk "b" "B") (5 # 1000))
                   (calculateSettlements half_cent_sheet))
      by (vm_compute; left; reflexivity).
    destruct (H _ Ha Hz _ Hs) as [Hfrom _]. apply Hfrom. reflexivity.
Qed.

(** ** Booking the plan on the input *)

Lemma sum_balances_cons (b : Balance.t) (l : list Balance.t) :
  sum_balances (b :: l) = Balance.balance b + sum_balances l.
Proof. reflexivity. Qed.

Lemma NoDup_map_eq {A B : Type} (f : A -> B) (l : list A) (a b : A) :
  NoDup (map f l) -> In a l -> In b l -> f a = f b -> a = b.
Proof.
  induction l as [|x l IH]; intros Hnd Ha Hb E; [contradiction|].
  cbn [map] in Hnd. apply NoDup_cons_iff in Hnd. destruct Hnd as [Hx Hnd].
  destruct Ha as [<- | Ha], Hb as [<- | Hb].
  - reflexivity.
  - exfalso. apply Hx. rewrite E. apply in_map. exact Hb.
  - exfalso. apply Hx. rewrite <- E. apply in_map. exact Ha.
  - apply IH; assumption.
Qed.

Lemma NoDup_map_filters {A B : Type} (f : A -> B) (p q : A -> bool) (l : list A) :
  (forall x, p x = true -> q x = true -> False) ->
  NoDup (map f l) -> NoDup (map f (filter p l ++ filter q l)).
Proof.
  intros Hpq. induction l as [|x l IH]; intro Hnd; [constructor|].
  cbn [map] in Hnd. apply NoDup_cons_iff in Hnd. destruct Hnd as [Hx Hnd].
  specialize (IH Hnd).
  assert (Hnot : ~ In (f x) (map f (filter p l ++ filter q l))).
  { intro Hin. apply Hx. apply in_map_iff in Hin. destruct Hin as (y & <- & Hy).
    apply in_map. apply in_app_iff in Hy.
    destruct Hy as [Hy | Hy]; apply filter_In in Hy; tauto. }
  cbn [filter].
  destruct (p x) eqn:Ep; destruct (q x) eqn:Eq.
  - exfalso. eauto.
  - cbn [app map]. constructor; assumption.
  - eapply Permutation_NoDup.
    + apply Permutation_map. apply Permutation_middle.
    + cbn [map]. constructor; assumption.
  - exact IH.
Qed.

Lemma in_adjust (k : string) (f : Q -> Q) (l : list Balance.t) (b' : Balance.t) :
  In b' (adjust k f l) ->
  exists b, In b l /\ Balance.id b' = Balance.id b
            /\ ((Balance.id b = k /\ Balance.balance b' = f (Balance.balance b))
                \/ (Balance.id b <> k /\ b' = b)).
Proof.
  unfold adjust. intro H. apply in_map_iff in H. destruct H as (b & <- & Hb).
  exists b. split; [exact Hb|].
  destruct (Balance.id b =? k)%string eqn:E.
  - apply String.eqb_eq in E. split; [reflexivity|]. left. split; [exact E | reflexivity].
  - apply String.eqb_neq in E. split; [reflexivity|]. right. split; [exact E | reflexivity].
Qed.

Lemma in_pay (l : list Balance.t) (s : Settlement.t) (b' : Balance.t) :
  Member.id (Settlement.from s) <> Member.id (Settlement.to s) ->
  In b' (pay l s) ->
  exists b, In b l /\ Balance.id b' = Balance.id b
    /\ ((Balance.id b = Member.id (Settlement.from s)
         /\ Balance.balance b' = Balance.balance b + Settlement.amount s)
        \/ (Balance.id b = Member.id (Settlement.to s)
            /\ Balance.balance b' = Balance.balance b - Settlement.amount s)
        \/ (Balance.id b <> Member.id (Settlement.from s)
            /\ Balance.id b <> Member.id (Settlement.to s) /\ b' = b)).
Proof.
  intros Hne H. unfold pay in H.
  apply in_adjust in H. destruct H as (b1 & H1 & Eid1 & Hc1).
  apply in_adjust in H1. destruct H1 as (b & Hb & Eid & Hc).
  exists b. split; [exact Hb|]. split; [congruence|].
  destruct Hc as [[Ek Ef] | [Nk ->]].
  - left. split; [exact Ek|].
    destruct Hc1 as [[Ek1 _] | [_ ->]]; [exfalso; congruence | exact Ef].
  - destruct Hc1 as [[Ek1 Ef1] | [Nk1 ->]].
    + right. left. split; assumption.
    + right. right. repeat split; assumption.
Qed.

Lemma after_plan_snoc (balances : list Balance.t) (plan : list Settlement.t)
  (s : Settlement.t) :
  after_plan balances (plan ++ [s]) = pay (after_plan balances plan) s.
Proof. unfold after_plan. rewrite fold_left_app. reflexivity. Qed.

(** What a turn of the loop leaves in the two lists. *)
Lemma loop_body_lists d ds c cs out :
  let amount := Qmin (- Balance.balance d) (Balance.balance c) in
  let d' := Balance.with_balance (fun b => b + amount) d in
  let c' := Balance.with_balance (fun b => b - amount) c in
  exists ds' cs',
    loop_body d ds c cs out
    = mkLoop ds' cs'
        (out ++ [Settlement.mk (Balance.member d) (Balance.member c) amount])
    /\ ((ds' = ds /\ Qabs (Balance.balance d + amount) < tolerance) \/ ds' = d' :: ds)
    /\ ((cs' = cs /\ Qabs (Balance.balance c - amount) < tolerance) \/ cs' = c' :: cs).
Proof.
  intros amount d' c'. unfold loop_body. fold amount. fold d'. fold c'.
  subst d' c'. cbn [Balance.balance Balance.with_balance].
  destruct (Qltb (Qabs (Balance.balance d + amount)) tolerance) eqn:Ed;
    destruct (Qltb (Qabs (Balance.balance c - amount)) tolerance) eqn:Ec;
    try (apply Qltb_lt in Ed); try (apply Qltb_lt in Ec);
    eexists; eexists; (split; [reflexivity|]); split; auto.
Qed.

Lemma lists_after_turn (d' c' : Balance.t) (ds cs ds' cs' : list Balance.t)
  (P R : Prop) :
  ((ds' = ds /\ P) \/ ds' = d' :: ds) ->
  ((cs' = cs /\ R) \/ cs' = c' :: cs) ->
  NoDup (balance_ids ((d' :: ds) ++ c' :: cs)) ->
  (forall x, In x (ds' ++ cs') -> In x (ds ++ cs) \/ x = d' \/ x = c')
  /\ NoDup (balance_ids (ds' ++ cs'))
  /\ (In (Balance.id d') (balance_ids (ds' ++ cs')) \/ P)
  /\ (In (Balance.id c') (balance_ids (ds' ++ cs')) \/ R)
  /\ (forall k, In k (balance_ids (ds ++ cs)) -> In k (balance_ids (ds' ++ cs'))).
Proof.
  intros Hds Hcs Hnd. unfold balance_ids in *.
  cbn [app map] in Hnd. rewrite map_app in Hnd. cbn [map] in Hnd.
  apply NoDup_cons_iff in Hnd. destruct Hnd as [H1 H2].
  pose proof (NoDup_remove_1 _ _ _ H2) as H3.
  pose proof (NoDup_remove_2 _ _ _ H2) as H4.
  rewrite in_app_iff in H1, H4. cbn [In] in H1.
  assert (Hsub : forall x (l1 l2 : list Balance.t),
             In x (map Balance.id (l1 ++ l2))
             <-> In x (map Balance.id l1) \/ In x (map Balance.id l2))
    by (intros; rewrite map_app; apply in_app_iff).
  destruct Hds as [[-> HP] | ->]; destruct Hcs as [[-> HR] | ->];
    (split; [intros x Hx; rewrite !in_app_iff in *; cbn [In] in *; intuition auto|]);
    (split;
     [rewrite map_app; cbn [map]
     |repeat split; try (intros k Hk); rewrite Hsub in *; cbn [map In] in *; tauto]).
  - exact H3.
  - exact H2.
  - cbn [app]. constructor; [rewrite in_app_iff; tauto | exact H3].
  - cbn [app]. constructor; [rewrite in_app_iff; cbn [In]; tauto | exact H2].
Qed.

Lemma in_balance_ids (l : list Balance.t) (k : string) :
  In k (balance_ids l) <-> exists x, In x l /\ Balance.id x = k.
Proof.
  unfold balance_ids. rewrite in_map_iff. split; intros (x & H1 & H2); eauto.
Qed.

Lemma copy_balance_id (b : Balance.t) : Balance.id (copy_balance b) = Balance.id b.
Proof. reflexivity. Qed.

Lemma initial_listed (balances : list Balance.t) (x : Balance.t) :
  In x (initial_debtors balances ++ initial_creditors balances) ->
  exists b, In b balances /\ x = copy_balance b.
Proof.
  intro Hx. apply in_app_iff in Hx. destruct Hx as [Hx | Hx].
  - apply initial_debtors_In in Hx. destruct Hx as (b & ? & _ & ?). eauto.
  - apply initial_creditors_In in Hx. destruct Hx as (b & ? & _ & ?). eauto.
Qed.

Lemma initial_listed_ids (balances : list Balance.t) :
  Permutation
    (balance_ids (initial_debtors balances ++ initial_creditors balances))
    (balance_ids (filter (fun m => Qltb (Balance.balance m) 0) balances
                  ++ filter (fun m => Qltb 0 (Balance.balance m)) balances)).
Proof.
  unfold balance_ids, initial_debtors, initial_creditors.
  rewrite !map_app. apply Permutation_app.
  - eapply perm_trans.
    + apply Permutation_map, Permutation_sym, js_sort_perm.
    + rewrite map_map. apply Permutation_refl.
  - eapply perm_trans.
    + apply Permutation_map, Permutation_sym, js_sort_perm.
    + rewrite map_map. apply Permutation_refl.
Qed.

Section Books.
Variables good settled : Q -> Prop.
Hypothesis settled_eq : forall p q, p == q -> settled p -> settled q.
Hypothesis good_transfer :
  forall d c, good d -> good c ->
              good (d + Qmin (- d) c) /\ good (c - Qmin (- d) c).
Hypothesis settled_zero : settled 0.
Hypothesis settle : forall q, good q -> Qabs q < tolerance -> settled q.

Lemma books_agree_step (balances : list Balance.t) (st st' : LoopState) :
  books_agree good settled balances st -> loop_step st = Some st' ->
  books_agree good settled balances st'.
Proof.
  intros (Hnd & Hd & Hc & Hgood & Hagree & Hcover) E.
  destruct (loop_step_Some _ _ E) as (d & ds & c & cs & Ed & Ec & ->).
  rewrite Ed, Ec in *.
  destruct (loop_body_signs d ds c cs (settlements st) Hd Hc) as [Hd' Hc'].
  destruct (loop_body_lists d ds c cs (settlements st))
    as (ds' & cs' & Eb & Hds' & Hcs').
  cbv zeta in Eb, Hds', Hcs'. rewrite Eb in *. clear Eb.
  set (amount := Qmin (- Balance.balance d) (Balance.balance c)) in *.
  set (d' := Balance.with_balance (fun b => b + amount) d) in *.
  set (c' := Balance.with_balance (fun b => b - amount) c) in *.
  assert (Hnd0 : NoDup (balance_ids ((d' :: ds) ++ c' :: cs)))
    by (unfold balance_ids in *; cbn [app map] in *; rewrite map_app in *;
        exact Hnd).
  destruct (lists_after_turn d' c' ds cs ds' cs' _ _ Hds' Hcs' Hnd0)
    as (F1 & F2 & F3 & F4 & F5).
  assert (Hdc : Balance.id d <> Balance.id c).
  { unfold balance_ids in Hnd. cbn [app map] in Hnd.
    apply NoDup_cons_iff in Hnd. destruct Hnd as [Hnd _].
    intro Heq. apply Hnd. rewrite map_app, in_app_iff. right. left.
    symmetry. exact Heq. }
  assert (Htail : forall x, In x (ds ++ cs) ->
                            Balance.id x <> Balance.id d
                            /\ Balance.id x <> Balance.id c
                            /\ In x ((d :: ds) ++ c :: cs)).
  { intros x Hx. unfold balance_ids in Hnd. cbn [app map] in Hnd.
    rewrite map_app in Hnd. cbn [map] in Hnd.
    apply NoDup_cons_iff in Hnd. destruct Hnd as [H1 H2].
    pose proof (NoDup_remove_2 _ _ _ H2) as H4.
    rewrite in_app_iff in H1, H4, Hx. cbn [In] in H1.
    cbn [app In]. rewrite in_app_iff. cbn [In].
    repeat split.
    - intro Heq. apply H1. rewrite <- Heq.
      destruct Hx as [Hx | Hx]; [left | right; right]; apply in_map; exact Hx.
    - intro Heq. apply H4. rewrite <- Heq.
      destruct Hx as [Hx | Hx]; [left | right]; apply in_map; exact Hx.
    - tauto. }
  assert (Hhead_d : In d ((d :: ds) ++ c :: cs)) by (left; reflexivity).
  assert (Hhead_c : In c ((d :: ds) ++ c :: cs))
    by (apply in_app_iff; right; left; reflexivity).
  destruct (good_transfer _ _ (Hgood d Hhead_d) (Hgood c Hhead_c))
    as [Hgood_d Hgood_c].
  fold amount in Hgood_d, Hgood_c.
  unfold books_agree. cbn [debtors creditors settlements] in *.
  rewrite after_plan_snoc.
  split; [exact F2|]. split; [exact Hd'|]. split; [exact Hc'|].
  split; [|split].
  - intros x Hx. destruct (F1 x Hx) as [Hx0 | [-> | ->]].
    + apply Hgood. apply (Htail x Hx0).
    + exact Hgood_d.
    + exact Hgood_c.
  - intros b' x Hb' Hx Eid.
    apply in_pay in Hb'; [|exact Hdc].
    cbn [Settlement.from Settlement.to Settlement.amount Balance.member Member.id] in Hb'.
    destruct Hb' as (b & Hb & Eid' & Hcase).
    destruct (F1 x Hx) as [Hx0 | [-> | ->]].
    + destruct (Htail x Hx0) as (N1 & N2 & Hx1).
      destruct Hcase as [[Ek _] | [[Ek _] | (_ & _ & ->)]];
        [exfalso; congruence | exfalso; congruence |].
      apply Hagree; assumption.
    + cbn [d' Balance.with_balance Balance.id Balance.balance] in *.
      destruct Hcase as [[Ek ->] | [[Ek _] | (Nk & _ & _)]];
        [| exfalso; congruence | exfalso; congruence].
      rewrite (Hagree b d Hb Hhead_d Ek). reflexivity.
    + cbn [c' Balance.with_balance Balance.id Balance.balance] in *.
      destruct Hcase as [[Ek _] | [[Ek ->] | (_ & Nk & _)]];
        [exfalso; congruence | | exfalso; congruence].
      rewrite (Hagree b c Hb Hhead_c Ek). reflexivity.
  - intros b' Hb'.
    apply in_pay in Hb'; [|exact Hdc].
    cbn [Settlement.from Settlement.to Settlement.amount Balance.member Member.id] in Hb'.
    destruct Hb' as (b & Hb & Eid' & Hcase).
    rewrite Eid'.
    destruct Hcase as [[Ek Ebal] | [[Ek Ebal] | (N1 & N2 & ->)]].
    + rewrite Ek. destruct F3 as [F3 | F3]; [left; exact F3 | right].
      rewrite Ebal. apply (settled_eq (Balance.balance d + amount)).
      * rewrite (Hagree b d Hb Hhead_d Ek). reflexivity.
      * apply settle; assumption.
    + rewrite Ek. destruct F4 as [F4 | F4]; [left; exact F4 | right].
      rewrite Ebal. apply (settled_eq (Balance.balance c - amount)).
      * rewrite (Hagree b c Hb Hhead_c Ek). reflexivity.
      * apply settle; assumption.
    + destruct (Hcover b Hb) as [Hin | Hsmall]; [left | right; exact Hsmall].
      apply F5. apply in_balance_ids in Hin. destruct Hin as (x & Hx & Ex).
      apply in_balance_ids.
      cbn [app In] in Hx. rewrite in_app_iff in Hx. cbn [In] in Hx.
      destruct Hx as [<- | [Hx | [<- | Hx]]];
        [exfalso; congruence | | exfalso; congruence |];
        exists x; (split; [apply in_app_iff; tauto | exact Ex]).
Qed.

Lemma books_agree_initial (balances : list Balance.t) :
  NoDup (balance_ids balances) ->
  Forall (fun b => good (Balance.balance b)) balances ->
  books_agree good settled balances (initial_state balances).
Proof.
  intros Hnd Hgood. unfold books_agree.
  cbn [initial_state debtors creditors settlements].
  destruct (initial_signs balances) as [Hd Hc].
  split; [|split; [exact Hd | split; [exact Hc | split; [|split]]]].
  - eapply Permutation_NoDup.
    + apply Permutation_sym, initial_listed_ids.
    + apply NoDup_map_filters; [|exact Hnd].
      intros x H1 H2. apply Qltb_lt in H1. apply Qltb_lt in H2. lra.
  - intros x Hx. destruct (initial_listed _ _ Hx) as (b & Hb & ->).
    rewrite Forall_forall in Hgood. apply (Hgood b Hb).
  - intros b x Hb Hx Eid. cbn [after_plan fold_left] in Hb.
    destruct (initial_listed _ _ Hx) as (b0 & Hb0 & ->).
    rewrite copy_balance_id in Eid.
    rewrite (NoDup_map_eq Balance.id balances b b0 Hnd Hb Hb0 Eid). reflexivity.
  - intros b Hb. cbn [after_plan fold_left] in Hb.
    destruct (Qlt_le_dec (Balance.balance b) 0) as [Hneg | Hge].
    + left. apply in_balance_ids. exists (copy_balance b). split; [|reflexivity].
      apply in_app_iff. left. apply initial_debtors_In. eauto.
    + destruct (Qlt_le_dec 0 (Balance.balance b)) as [Hpos | Hle].
      * left. apply in_balance_ids. exists (copy_balance b). split; [|reflexivity].
        apply in_app_iff. right. apply initial_creditors_In. eauto.
      * right. apply (settled_eq 0); [lra | exact settled_zero].
Qed.


End Books.

(** Booking keeps the members and the total of the sheet. *)
Lemma adjust_ids (k : string) (f : Q -> Q) (l : list Balance.t) :
  balance_ids (adjust k f l) = balance_ids l.
Proof.
  unfold balance_ids, adjust. rewrite map_map. apply map_ext.
  intro b. destruct (Balance.id b =? k)%string; reflexivity.
Qed.

Lemma adjust_absent (k : string) (f : Q -> Q) (l : list Balance.t) :
  ~ In k (balance_ids l) -> adjust k f l = l.
Proof.
  unfold balance_ids, adjust.
  induction l as [|b l IH]; cbn [map In]; intro H; [reflexivity|].
  destruct (String.eqb_spec (Balance.id b) k) as [E | E]; [tauto|].
  rewrite IH; [reflexivity | tauto].
Qed.

Lemma adjust_sum (k : string) (f : Q -> Q) (x : Q) (l : list Balance.t) :
  (forall q, f q == q + x) ->
  NoDup (balance_ids l) -> In k (balance_ids l) ->
  sum_balances (adjust k f l) == sum_balances l + x.
Proof.
  intros Hf. induction l as [|b l IH]; intros Hnd Hk; [contradiction|].
  cbn [balance_ids map] in Hnd, Hk. fold (balance_ids l) in Hnd, Hk.
  apply NoDup_cons_iff in Hnd. destruct Hnd as [Hb Hnd].
  change (adjust k f (b :: l))
    with ((if (Balance.id b =? k)%string then Balance.with_balance f b else b)
            :: adjust k f l).
  rewrite !sum_balances_cons.
  destruct (String.eqb_spec (Balance.id b) k) as [E | E].
  - subst k. rewrite (adjust_absent _ f l Hb).
    cbn [Balance.with_balance Balance.balance]. rewrite Hf. ring.
  - destruct Hk as [Hk | Hk]; [contradiction|].
    rewrite (IH Hnd Hk). ring.
Qed.

Lemma pay_ids (l : list Balance.t) (s : Settlement.t) :
  balance_ids (pay l s) = balance_ids l.
Proof. unfold pay. rewrite !adjust_ids. reflexivity. Qed.

Lemma pay_sum (l : list Balance.t) (s : Settlement.t) :
  NoDup (balance_ids l) ->
  In (Member.id (Settlement.from s)) (balance_ids l) ->
  In (Member.id (Settlement.to s)) (balance_ids l) ->
  sum_balances (pay l s) == sum_balances l.
Proof.
  intros Hnd Hfrom Hto. unfold pay.
  rewrite (adjust_sum _ _ (- Settlement.amount s));
    [| intro q; ring | rewrite adjust_ids; exact Hnd | rewrite adjust_ids; exact Hto].
  rewrite (adjust_sum _ _ (Settlement.amount s));
    [| intro q; ring | exact Hnd | exact Hfrom].
  ring.
Qed.

Lemma books_balance_step (balances : list Balance.t) (st st' : LoopState) :
  NoDup (balance_ids balances) ->
  books_balance balances st -> loop_step st = Some st' -> books_balance balances st'.
Proof.
  intros Hnd (Hids & Hlisted & Hsum) E.
  destruct (loop_step_Some _ _ E) as (d & ds & c & cs & Ed & Ec & ->).
  rewrite Ed, Ec in Hlisted.
  destruct (loop_body_lists d ds c cs (settlements st))
    as (ds' & cs' & Eb & Hds' & Hcs').
  cbv zeta in Eb, Hds', Hcs'. rewrite Eb. clear Eb.
  unfold books_balance. cbn [debtors creditors settlements].
  rewrite after_plan_snoc, pay_ids. split; [exact Hids|]. split.
  - intros x Hx. apply in_app_iff in Hx.
    assert (Hd0 : In (Balance.id d) (balance_ids balances))
      by (apply Hlisted; left; reflexivity).
    assert (Hc0 : In (Balance.id c) (balance_ids balances))
      by (apply Hlisted, in_app_iff; right; left; reflexivity).
    destruct Hx as [Hx | Hx].
    + destruct Hds' as [[-> _] | ->]; [|destruct Hx as [<- | Hx]; [exact Hd0|]];
        apply Hlisted, in_app_iff; left; right; exact Hx.
    + destruct Hcs' as [[-> _] | ->]; [|destruct Hx as [<- | Hx]; [exact Hc0|]];
        apply Hlisted, in_app_iff; right; right; exact Hx.
  - rewrite pay_sum; [exact Hsum | rewrite Hids; exact Hnd | |];
      rewrite Hids; cbn [Settlement.from Settlement.to Balance.member Member.id];
      apply Hlisted; [left; reflexivity | apply in_app_iff; right; left; reflexivity].
Qed.

Lemma books_balance_initial (balances : list Balance.t) :
  books_balance balances (initial_state balances).
Proof.
  unfold books_balance. cbn [initial_state debtors creditors settlements after_plan fold_left].
  split; [reflexivity|]. split; [|reflexivity].
  intros x Hx. destruct (initial_listed _ _ Hx) as (b & Hb & ->).
  rewrite copy_balance_id. apply in_map. exact Hb.
Qed.









(** The sheet is not contrived: it is what [computeBalances] returns for
    three expenses whose custom splits add up, and the plan computed from
    that result leaves E unsettled. *)
Lemma residue_from_expenses :
  Forall (payer_known residue_group) residue_expenses
  /\ Forall (splits_cover residue_group) residue_expenses
  /\ exists balances,
       computeBalances residue_group residue_expenses = Ok balances
       /\ Forall2 (fun b r => Balance.member b = Balance.member r
                              /\ Balance.balance b == Balance.balance r)
            balances residue_sheet
       /\ ~ settled_in_full balances.
Proof.
  split; [repeat constructor; cbn; tauto|].
  split; [repeat constructor; reflexivity|].
  eexists. split; [vm_compute; reflexivity|]. split.
  - repeat constructor; reflexivity.
  - intro H. unfold settled_in_full in H. rewrite Forall_forall in H.
    match goal with
    | H : forall x, In x ?l -> _ |- _ =>
        assert (Hin : exists e, In e l /\ Balance.id e = "e"%string
                                /\ ~ within_tolerance e)
    end.
    { eexists. split; [vm_compute; do 4 right; left; reflexivity|].
      split; [reflexivity|]. intro Hw. vm_compute in Hw. apply Hw. reflexivity. }
    destruct Hin as (e & Hin & _ & Hw). apply Hw. apply H. exact Hin.
Qed.

(** On the sample group the direction alone decides: as worded, the
    balances 60, -30, -30 become 120, -60, -60; as the loop books them, they
    all become zero. *)
Lemma dinner_direction :
  ~ settled_as_stated dinner_sheet /\ settled_in_full dinner_sheet.
Proof.
  split.
  - intro H. apply Forall_inv in H. vm_compute in H. apply H. reflexivity.
  - unfold settled_in_full, within_tolerance.
    repeat constructor; vm_compute; discriminate.
Qed.

(** A sheet that does not sum to zero cannot be settled by transfers. *)
Lemma lone_creditor_not_settled :
  ~ settled_in_full [Balance.mk "a" "A" 10].
Proof.
  intro H. apply Forall_inv in H. vm_compute in H. apply H. reflexivity.
Qed.

(** ** Objects *)

Section ObjectFacts.
Context {V : Type}.
Implicit Types (o : JsObject.t V) (k : string) (v : V).

Lemma get_Some_In o k v : JsObject.get o k = Some v -> In (k, v) o.
Proof.
  induction o as [|[k' v'] o IH]; cbn [JsObject.get]; [discriminate|].
  destruct (k' =? k)%string eqn:E.
  - apply String.eqb_eq in E. intro H. injection H as <-. subst. left. reflexivity.
  - intro H. right. apply IH. exact H.
Qed.

Lemma get_None_keys o k : JsObject.get o k = None <-> ~ In k (JsObject.keys o).
Proof.
  unfold JsObject.keys.
  induction o as [|[k' v'] o IH]; cbn [JsObject.get map In fst]; [tauto|].
  destruct (k' =? k)%string eqn:E.
  - apply String.eqb_eq in E. split; [discriminate | tauto].
  - apply String.eqb_neq in E. rewrite IH. tauto.
Qed.

Lemma get_In_keys o k : In k (JsObject.keys o) -> exists v, JsObject.get o k = Some v.
Proof.
  intro H. destruct (JsObject.get o k) as [v|] eqn:E; [eauto|].
  apply get_None_keys in E. contradiction.
Qed.

Lemma In_get o k v : NoDup (JsObject.keys o) -> In (k, v) o -> JsObject.get o k = Some v.
Proof.
  unfold JsObject.keys.
  induction o as [|[k' v'] o IH]; cbn [JsObject.get map In fst]; [tauto|].
  intros Hnd H. apply NoDup_cons_iff in Hnd. destruct Hnd as [Hk Hnd].
  destruct H as [H | H].
  - injection H as -> ->. rewrite String.eqb_refl. reflexivity.
  - destruct (k' =? k)%string eqn:E; [|apply IH; assumption].
    apply String.eqb_eq in E. subst k'. exfalso. apply Hk.
    apply (in_map fst) in H. exact H.
Qed.

Lemma get_alter (f : V -> V) o k k' :
  JsObject.get (JsObject.alter f o k) k'
  = if (k =? k')%string then option_map f (JsObject.get o k') else JsObject.get o k'.
Proof.
  induction o as [|[k0 v0] o IH]; cbn [JsObject.get JsObject.alter].
  - destruct (k =? k')%string; reflexivity.
  - destruct (k0 =? k)%string eqn:E0.
    + apply String.eqb_eq in E0. subst k0. cbn [JsObject.get].
      destruct (k =? k')%string; reflexivity.
    + cbn [JsObject.get]. destruct (k0 =? k')%string eqn:E1.
      * apply String.eqb_eq in E1. subst k0. rewrite String.eqb_sym, E0.
        reflexivity.
      * exact IH.
Qed.

Lemma set_fresh o k v : ~ In k (JsObject.keys o) -> JsObject.set o k v = o ++ [(k, v)].
Proof.
  unfold JsObject.keys.
  induction o as [|[k' v'] o IH]; cbn [JsObject.set map In fst app]; [reflexivity|].
  intro H. destruct (k' =? k)%string eqn:E.
  - apply String.eqb_eq in E. tauto.
  - rewrite IH; [reflexivity | tauto].
Qed.

Lemma keys_set o k v k' :
  In k' (JsObject.keys (JsObject.set o k v)) <-> k' = k \/ In k' (JsObject.keys o).
Proof.
  unfold JsObject.keys.
  induction o as [|[k0 v0] o IH]; cbn [JsObject.set map In fst].
  - intuition auto.
  - destruct (k0 =? k)%string eqn:E; cbn [map In fst].
    + apply String.eqb_eq in E. subst k0. intuition auto.
    + rewrite IH. intuition auto.
Qed.

Lemma index_insert_perm (e : string * V) (l : JsObject.t V) :
  Permutation (e :: l) (JsObject.index_insert e l).
Proof.
  induction l as [|e' l IH]; cbn [JsObject.index_insert].
  - apply Permutation_refl.
  - destruct (JsObject.index_of (fst e) <=? JsObject.index_of (fst e'))%N.
    + apply Permutation_refl.
    + eapply perm_trans; [apply perm_swap|]. apply perm_skip. exact IH.
Qed.

Lemma index_sort_perm (l : JsObject.t V) : Permutation l (JsObject.index_sort l).
Proof.
  induction l as [|e l IH]; cbn [JsObject.index_sort].
  - apply perm_nil.
  - eapply perm_trans; [apply perm_skip; exact IH|]. apply index_insert_perm.
Qed.

Lemma filter_split_perm {A : Type} (p : A -> bool) (l : list A) :
  Permutation (filter p l ++ filter (fun x => negb (p x)) l) l.
Proof.
  induction l as [|x l IH]; cbn [filter]; [apply perm_nil|].
  destruct (p x); cbn [negb app].
  - apply perm_skip. exact IH.
  - apply Permutation_sym. eapply perm_trans; [|apply Permutation_middle].
    apply perm_skip. apply Permutation_sym. exact IH.
Qed.

Lemma entries_perm o : Permutation (JsObject.entries o) o.
Proof.
  unfold JsObject.entries.
  eapply perm_trans; [|apply (filter_split_perm (fun e => JsObject.is_index (fst e)))].
  apply Permutation_app_tail. apply Permutation_sym, index_sort_perm.
Qed.

Lemma entries_no_index o :
  Forall (fun k => JsObject.is_index k = false) (JsObject.keys o) ->
  JsObject.entries o = o.
Proof.
  unfold JsObject.entries, JsObject.keys. intro H.
  assert (E1 : filter (fun e : string * V => JsObject.is_index (fst e)) o = []).
  { induction o as [|e o IH]; [reflexivity|]. cbn [map] in H.
    inversion_clear H as [|? ? He Ho]. cbn [filter]. rewrite He. auto. }
  assert (E2 : filter (fun e : string * V => negb (JsObject.is_index (fst e))) o = o).
  { induction o as [|e o IH]; [reflexivity|]. cbn [map] in H.
    inversion_clear H as [|? ? He Ho]. cbn [filter]. rewrite He. cbn [negb].
    f_equal. apply IH; [exact Ho|]. cbn [filter] in E1. rewrite He in E1. exact E1. }
  rewrite E1, E2. reflexivity.
Qed.
End ObjectFacts.

(** Mapping the values of an object does not change the order of its
    properties. *)
Lemma index_insert_map {V W : Type} (g : V -> W) (e : string * V)
  (l : JsObject.t V) :
  JsObject.index_insert (fst e, g (snd e)) (map (fun x => (fst x, g (snd x))) l)
  = map (fun x => (fst x, g (snd x))) (JsObject.index_insert e l).
Proof.
  induction l as [|e' l IH]; cbn [JsObject.index_insert map fst]; [reflexivity|].
  destruct (JsObject.index_of (fst e) <=? JsObject.index_of (fst e'))%N;
    cbn [map]; [reflexivity|].
  f_equal. exact IH.
Qed.

Lemma entries_map {V W : Type} (g : V -> W) (o : JsObject.t V) :
  JsObject.entries (map (fun x => (fst x, g (snd x))) o)
  = map (fun x => (fst x, g (snd x))) (JsObject.entries o).
Proof.
  unfold JsObject.entries. rewrite map_app. f_equal.
  - induction o as [|e o IH]; [reflexivity|]. cbn [map filter fst].
    destruct (JsObject.is_index (fst e)); [|exact IH].
    cbn [JsObject.index_sort map]. rewrite IH. apply index_insert_map.
  - induction o as [|e o IH]; [reflexivity|]. cbn [map filter fst].
    destruct (JsObject.is_index (fst e)); cbn [negb map]; [exact IH|].
    f_equal. exact IH.
Qed.

(** ** The balance engine *)


Lemma forEach_invariant {A S : Type} (I : S -> Prop) (body : S -> A -> result S)
  (xs : list A) :
  (forall s x, In x xs -> I s -> exists s', body s x = Ok s' /\ I s') ->
  forall s, I s -> exists s', forEach body xs s = Ok s' /\ I s'.
Proof.
  induction xs as [|x xs IH]; intros Hbody s Hs; cbn [forEach].
  - eauto.
  - destruct (Hbody s x (or_introl eq_refl) Hs) as (s1 & E1 & H1).
    rewrite E1. cbn [bind]. apply IH; [|exact H1].
    intros s0 x0 Hx0. apply Hbody. right. exact Hx0.
Qed.

Lemma keys_store_members (o : store) :
  JsObject.keys o = map fst (store_members o).
Proof.
  unfold JsObject.keys, store_members. rewrite map_map. reflexivity.
Qed.

Lemma store_members_keys (o o' : store) :
  store_members o' = store_members o -> JsObject.keys o' = JsObject.keys o.
Proof. intro H. rewrite !keys_store_members, H. reflexivity. Qed.

Lemma alter_members (f : Q -> Q) (o : store) (k : string) :
  store_members (JsObject.alter (Balance.with_balance f) o k) = store_members o.
Proof.
  unfold store_members.
  induction o as [|[k' b] o IH]; cbn [JsObject.alter map]; [reflexivity|].
  destruct (k' =? k)%string; cbn [map fst snd]; [reflexivity|].
  f_equal. exact IH.
Qed.

Lemma alter_sum (f : Q -> Q) (x : Q) (o : store) (k : string) :
  (forall q, f q == q + x) -> In k (JsObject.keys o) ->
  store_sum (JsObject.alter (Balance.with_balance f) o k) == store_sum o + x.
Proof.
  intros Hf. unfold store_sum, JsObject.keys.
  induction o as [|[k' b] o IH]; cbn [JsObject.alter map In fst]; [contradiction|].
  intro Hk. destruct (k' =? k)%string eqn:E.
  - cbn [map snd]. rewrite !sum_balances_cons.
    cbn [Balance.with_balance Balance.balance]. rewrite Hf. ring.
  - apply String.eqb_neq in E. destruct Hk as [Hk | Hk]; [contradiction|].
    cbn [map snd]. rewrite !sum_balances_cons, (IH Hk). ring.
Qed.

(** A guarded or unguarded update of a present key. *)
Lemma modify_balance_present (f : Q -> Q) (x : Q) (o : store) (k : string) :
  (forall q, f q == q + x) -> In k (JsObject.keys o) ->
  exists o', modify_balance f o k = Ok o'
             /\ store_members o' = store_members o
             /\ store_sum o' == store_sum o + x.
Proof.
  intros Hf Hk. unfold modify_balance.
  destruct (get_In_keys o k Hk) as [b ->].
  eexists. split; [reflexivity|]. split.
  - apply alter_members.
  - apply alter_sum; assumption.
Qed.

Lemma credit_payer_known (o : store) (e : Expense.t) :
  In (Expense.paidBy e) (JsObject.keys o) ->
  exists o', credit_payer o e = Ok o'
             /\ store_members o' = store_members o
             /\ store_sum o' == store_sum o + Expense.amount e.
Proof.
  intro Hk. unfold credit_payer. destruct (get_In_keys o _ Hk) as [b ->].
  apply modify_balance_present; [reflexivity | exact Hk].
Qed.

Lemma credit_payer_unknown (o : store) (e : Expense.t) :
  ~ In (Expense.paidBy e) (JsObject.keys o) -> credit_payer o e = Ok o.
Proof.
  intro Hk. unfold credit_payer. apply get_None_keys in Hk. rewrite Hk. reflexivity.
Qed.

Lemma credit_payer_total (o : store) (e : Expense.t) :
  exists o', credit_payer o e = Ok o' /\ store_members o' = store_members o.
Proof.
  destruct (in_dec string_dec (Expense.paidBy e) (JsObject.keys o)) as [Hk | Hk].
  - destruct (credit_payer_known o e Hk) as (o' & E & Hm & _). eauto.
  - rewrite (credit_payer_unknown o e Hk). eauto.
Qed.

Lemma subtract_split_unknown (o : store) (s : Split.t) :
  ~ In (Split.memberId s) (JsObject.keys o) -> subtract_split o s = Ok o.
Proof.
  intro Hk. unfold subtract_split. apply get_None_keys in Hk. rewrite Hk. reflexivity.
Qed.

Lemma subtract_split_known (o : store) (s : Split.t) :
  In (Split.memberId s) (JsObject.keys o) ->
  exists o', subtract_split o s = Ok o'
             /\ store_members o' = store_members o
             /\ store_sum o' == store_sum o - or_zero (Split.amount s).
Proof.
  intro Hk. unfold subtract_split. destruct (get_In_keys o _ Hk) as [b ->].
  apply (modify_balance_present _ (- or_zero (Split.amount s)));
    [intro q; ring | exact Hk].
Qed.

Lemma subtract_share_present (share : Q) (o : store) (m : Member.t) :
  In (Member.id m) (JsObject.keys o) ->
  exists o', subtract_share share o m = Ok o'
             /\ store_members o' = store_members o
             /\ store_sum o' == store_sum o - share.
Proof.
  intro Hk. unfold subtract_share.
  apply (modify_balance_present _ (- share)); [intro q; ring | exact Hk].
Qed.

Lemma keys_cover_members (members : list Member.t) (o o' : store) :
  store_members o' = store_members o -> keys_cover members o -> keys_cover members o'.
Proof.
  intros Hm Hk k. rewrite (store_members_keys _ _ Hm). apply Hk.
Qed.

Lemma splits_effect (members : list Member.t) (splits : list Split.t) :
  forall o, keys_cover members o ->
  exists o', forEach subtract_split splits o = Ok o'
             /\ store_members o' = store_members o
             /\ store_sum o' == store_sum o - known_split_total members splits.
Proof.
  induction splits as [|s splits IH]; intros o Hk;
    cbn [forEach known_split_total fold_right].
  - exists o. repeat split. ring.
  - fold (known_split_total members splits).
    destruct (in_dec string_dec (Split.memberId s) (member_ids members)) as [Hin | Hout].
    + apply Hk in Hin.
      destruct (subtract_split_known o s Hin) as (o1 & -> & Hm1 & Hs1). cbn [bind].
      destruct (IH o1 (keys_cover_members _ _ _ Hm1 Hk)) as (o' & E & Hm & Hs).
      exists o'. split; [exact E|]. split; [congruence|]. rewrite Hs, Hs1. ring.
    + assert (Hout' : ~ In (Split.memberId s) (JsObject.keys o))
        by (intro H; apply Hout, Hk, H).
      rewrite (subtract_split_unknown o s Hout'). cbn [bind]. apply IH. exact Hk.
Qed.

Lemma member_count_cons (m : Member.t) (members : list Member.t) :
  member_count (m :: members) == member_count members + 1.
Proof.
  unfold member_count. cbn [List.length].
  rewrite Nat2Z.inj_succ, <- Z.add_1_r, inject_Z_plus. reflexivity.
Qed.


Lemma shares_effect (share : Q) (members : list Member.t) :
  forall o, (forall m, In m members -> In (Member.id m) (JsObject.keys o)) ->
  exists o', forEach (subtract_share share) members o = Ok o'
             /\ store_members o' = store_members o
             /\ store_sum o' == store_sum o - member_count members * share.
Proof.
  induction members as [|m members IH]; intros o Hk; cbn [forEach].
  - exists o. repeat split. unfold member_count. cbn. ring.
  - destruct (subtract_share_present share o m (Hk m (or_introl eq_refl)))
      as (o1 & -> & Hm1 & Hs1). cbn [bind].
    destruct (IH o1) as (o' & E & Hm & Hs).
    { intros m' Hm'. rewrite (store_members_keys _ _ Hm1). apply Hk. right. exact Hm'. }
    exists o'. split; [exact E|]. split; [congruence|].
    rewrite Hs, Hs1, member_count_cons. ring.
Qed.

Lemma set_Forall {V : Type} (P : string * V -> Prop) (o : JsObject.t V) k v :
  Forall P o -> P (k, v) -> Forall P (JsObject.set o k v).
Proof.
  intros Ho Hv. induction o as [|[k' v'] o IH]; cbn [JsObject.set].
  - constructor; [exact Hv | constructor].
  - inversion_clear Ho as [|? ? H1 H2].
    destruct (k' =? k)%string; constructor; auto.
Qed.

Lemma init_Forall (P : string * Balance.t -> Prop) (members : list Member.t) :
  (forall m, In m members -> P (fresh_entry m)) ->
  Forall P (init_balances members).
Proof.
  unfold init_balances. intro H.
  assert (G : forall acc, Forall P acc ->
                Forall P (fold_left
                            (fun o m => JsObject.set o (Member.id m)
                                          (Balance.mk (Member.id m) (Member.name m) 0))
                            members acc)).
  { induction members as [|m members IH]; intros acc Hacc; cbn [fold_left].
    - exact Hacc.
    - apply IH.
      + intros m' Hm'. apply H. right. exact Hm'.
      + apply set_Forall; [exact Hacc|]. apply (H m). left. reflexivity. }
  apply G. constructor.
Qed.

Lemma init_keys (members : list Member.t) : keys_cover members (init_balances members).
Proof.
  unfold keys_cover, init_balances.
  assert (G : forall acc k,
             In k (JsObject.keys
                     (fold_left
                        (fun o m => JsObject.set o (Member.id m)
                                      (Balance.mk (Member.id m) (Member.name m) 0))
                        members acc))
             <-> In k (JsObject.keys acc) \/ In k (member_ids members)).
  { induction members as [|m members IH]; intros acc k; cbn [fold_left member_ids map In].
    - tauto.
    - rewrite IH, keys_set. fold (member_ids members). intuition auto. }
  intro k. rewrite G. cbn. tauto.
Qed.


Lemma init_distinct (members : list Member.t) :
  NoDup (member_ids members) -> init_balances members = map fresh_entry members.
Proof.
  unfold init_balances.
  assert (G : forall acc,
             NoDup (JsObject.keys acc ++ member_ids members) ->
             fold_left
               (fun o m => JsObject.set o (Member.id m)
                             (Balance.mk (Member.id m) (Member.name m) 0))
               members acc
             = acc ++ map fresh_entry members).
  { induction members as [|m members IH]; intros acc Hnd; cbn [fold_left map].
    - rewrite app_nil_r. reflexivity.
    - cbn [member_ids map] in Hnd. fold (member_ids members) in Hnd.
      rewrite set_fresh.
      + rewrite IH.
        * rewrite <- app_assoc. reflexivity.
        * unfold JsObject.keys. rewrite map_app. cbn [map fst].
          rewrite <- app_assoc. exact Hnd.
      + apply NoDup_remove_2 in Hnd. intro H. apply Hnd. apply in_app_iff. tauto. }
  intro Hnd. apply (G []). exact Hnd.
Qed.

Lemma apply_split_total (members : list Member.t) (o : store) (e : Expense.t) :
  keys_cover members o ->
  exists o', apply_split members o e = Ok o' /\ store_members o' = store_members o.
Proof.
  intro Hk. unfold apply_split. destruct (custom_splits e) as [splits|].
  - destruct (splits_effect members splits o Hk) as (o' & E & Hm & _). eauto.
  - destruct (shares_effect (share_per_member members e) members o) as (o' & E & Hm & _).
    + intros m Hm. apply Hk. apply in_map. exact Hm.
    + eauto.
Qed.

Lemma apply_expense_total (members : list Member.t) (o : store) (e : Expense.t) :
  keys_cover members o ->
  exists o', apply_expense members o e = Ok o' /\ store_members o' = store_members o.
Proof.
  intro Hk. unfold apply_expense.
  destruct (credit_payer_total o e) as (o1 & -> & Hm1). cbn [bind].
  destruct (apply_split_total members o1 e (keys_cover_members _ _ _ Hm1 Hk))
    as (o' & E & Hm).
  exists o'. split; [exact E | congruence].
Qed.

Lemma ledger_total (members : list Member.t) (expenses : list Expense.t) :
  exists o, ledger members expenses = Ok o
            /\ store_members o = store_members (init_balances members).
Proof.
  unfold ledger.
  apply (forEach_invariant
           (fun o => store_members o = store_members (init_balances members))).
  - intros o e _ Ho.
    destruct (apply_expense_total members o e) as (o' & E & Hm).
    + apply (keys_cover_members _ _ _ Ho). apply init_keys.
    + exists o'. split; [exact E | congruence].
  - reflexivity.
Qed.











(** ** Conservation *)







(** ** One balance per member *)

Lemma member_fresh_entry (m : Member.t) : Balance.member (snd (fresh_entry m)) = m.
Proof. destruct m. reflexivity. Qed.

Lemma init_members (members : list Member.t) :
  NoDup (member_ids members) ->
  store_members (init_balances members) = map (fun m => (Member.id m, m)) members.
Proof.
  intro Hnd. rewrite (init_distinct members Hnd). unfold store_members.
  rewrite map_map. apply map_ext. intro m. cbn [fst].
  rewrite member_fresh_entry. reflexivity.
Qed.





(** ** Equal splits *)


Lemma shares_get (share : Q) (members : list Member.t) :
  NoDup (member_ids members) ->
  forall o o', forEach (subtract_share share) members o = Ok o' ->
  forall k,
    JsObject.get o' k
    = if in_dec string_dec k (member_ids members)
      then option_map (Balance.with_balance (fun b => b - share)) (JsObject.get o k)
      else JsObject.get o k.
Proof.
  induction members as [|m members IH]; intros Hnd o o' E k; cbn [forEach] in E.
  - injection E as <-. destruct (in_dec string_dec k (member_ids [])) as [[]|_].
    reflexivity.
  - cbn [member_ids map] in Hnd. fold (member_ids members) in Hnd.
    apply NoDup_cons_iff in Hnd. destruct Hnd as [Hm Hnd].
    unfold subtract_share at 1, modify_balance in E.
    destruct (JsObject.get o (Member.id m)) as [b|]; [|discriminate].
    cbn [bind] in E. rewrite (IH Hnd _ _ E k), get_alter.
    destruct (in_dec string_dec k (member_ids (m :: members))) as [Hin | Hout];
      destruct (in_dec string_dec k (member_ids members)) as [Hin' | Hout'];
      destruct (String.eqb_spec (Member.id m) k) as [Ek | Ek];
      try reflexivity; exfalso.
    + subst k. contradiction.
    + destruct Hin as [Hin | Hin]; contradiction.
    + apply Hout. right. exact Hin'.
    + apply Hout. right. exact Hin'.
    + apply Hout. left. exact Ek.
Qed.

Lemma values_In (o : store) (b : Balance.t) :
  In b (JsObject.values o) -> exists k, In (k, b) o.
Proof.
  unfold JsObject.values. intro H. apply in_map_iff in H.
  destruct H as ([k b'] & Eb & H). cbn [snd] in Eb. subst b'.
  exists k. apply (Permutation_in _ (entries_perm o)). exact H.
Qed.

(** The store of a group with distinct ids. *)
Lemma ledger_distinct (m : Member.t) (members : list Member.t)
  (expenses : list Expense.t) :
  NoDup (member_ids (m :: members)) ->
  exists o,
    ledger (m :: members) expenses = Ok o
    /\ computeBalances (m :: members) expenses = Ok (JsObject.values o)
    /\ store_members o = map (fun x => (Member.id x, x)) (m :: members)
    /\ JsObject.keys o = member_ids (m :: members).
Proof.
  intro Hnd. destruct (ledger_total (m :: members) expenses) as (o & E & Hm).
  exists o. rewrite (init_members _ Hnd) in Hm.
  split; [exact E|]. split; [|split; [exact Hm|]].
  - unfold computeBalances. rewrite E. reflexivity.
  - rewrite keys_store_members, Hm, map_map. reflexivity.
Qed.




(** * Further properties of the planner *)

Lemma reaches_grows (st st' : LoopState) :
  reaches st st' -> exists more, settlements st' = settlements st ++ more.
Proof.
  induction 1 as [st | st st1 st2 E _ [more IH]].
  - exists []. rewrite app_nil_r. reflexivity.
  - destruct (loop_step_Some _ _ E) as (d & ds & c & cs & _ & _ & ->).
    cbn [loop_body settlements] in IH. rewrite <- app_assoc in IH. eauto.
Qed.

Lemma filter_none {A : Type} (p : A -> bool) (l : list A) :
  (forall x, In x l -> p x = false) -> filter p l = [].
Proof.
  induction l as [|x l IH]; intro H; [reflexivity|].
  cbn [filter]. rewrite (H x (or_introl eq_refl)).
  apply IH. intros y Hy. apply H. right. exact Hy.
Qed.

Lemma all_or_some_negative (balances : list Balance.t) :
  Forall (fun b => 0 <= Balance.balance b) balances
  \/ exists b, In b balances /\ Balance.balance b < 0.
Proof.
  induction balances as [|b l [IH | (x & Hx & Hlt)]].
  - left. constructor.
  - destruct (Qlt_le_dec (Balance.balance b) 0) as [Hlt | Hge].
    + right. exists b. split; [left; reflexivity | exact Hlt].
    + left. constructor; assumption.
  - right. exists x. split; [right; exact Hx | exact Hlt].
Qed.

Lemma all_or_some_positive (balances : list Balance.t) :
  Forall (fun b => Balance.balance b <= 0) balances
  \/ exists b, In b balances /\ 0 < Balance.balance b.
Proof.
  induction balances as [|b l [IH | (x & Hx & Hlt)]].
  - left. constructor.
  - destruct (Qlt_le_dec 0 (Balance.balance b)) as [Hlt | Hge].
    + right. exists b. split; [left; reflexivity | exact Hlt].
    + left. constructor; assumption.
  - right. exists x. split; [right; exact Hx | exact Hlt].
Qed.

Lemma one_sided_plan_empty (balances : list Balance.t) :
  Forall (fun b => 0 <= Balance.balance b) balances
  \/ Forall (fun b => Balance.balance b <= 0) balances ->
  calculateSettlements balances = [].
Proof.
  intro H. unfold calculateSettlements.
  assert (E : loop_step (initial_state balances) = None).
  { unfold loop_step, initial_state, initial_debtors, initial_creditors.
    cbn [debtors creditors].
    destruct H as [H | H]; rewrite Forall_forall in H.
    - rewrite (filter_none (fun m => Qltb (Balance.balance m) 0) balances).
      + reflexivity.
      + intros x Hx. apply Qltb_ge. apply H. exact Hx.
    - rewrite (filter_none (fun m => Qltb 0 (Balance.balance m)) balances).
      + cbn [map js_sort]. destruct (js_sort _ _); reflexivity.
      + intros x Hx. apply Qltb_ge. apply H. exact Hx. }
  destruct (loop_measure (initial_state balances)); cbn [while_loop];
    rewrite E; reflexivity.
Qed.

(** X1: the plan is empty exactly when nobody owes or nobody is owed, that
    is, when no balance is negative or no balance is positive (in
    particular when all balances are zero, and on the empty sheet). *)
Theorem plan_empty_iff (balances : list Balance.t) :
  calculateSettlements balances = []
  <-> (Forall (fun b => 0 <= Balance.balance b) balances
       \/ Forall (fun b => Balance.balance b <= 0) balances).
Proof.
  split.
  - intro Hnil.
    destruct (all_or_some_negative balances) as [H | (d & Hd & Hneg)]; [now left|].
    destruct (all_or_some_positive balances) as [H | (c & Hc & Hpos)]; [now right|].
    exfalso.
    destruct (calculateSettlements_final balances) as (final & Hw & Es & _ & _).
    assert (Hd0 : In (copy_balance d) (initial_debtors balances))
      by (apply initial_debtors_In; eauto).
    assert (Hc0 : In (copy_balance c) (initial_creditors balances))
      by (apply initial_creditors_In; eauto).
    destruct (loop_step (initial_state balances)) as [st1|] eqn:E1.
    + destruct (loop_measure (initial_state balances)) as [|fuel] eqn:Em.
      * apply loop_step_measure in E1. lia.
      * cbn [while_loop] in Hw. rewrite E1 in Hw.
        destruct (while_loop_reaches _ _ _ Hw) as [Hr _].
        destruct (reaches_grows _ _ Hr) as [more Hmore].
        destruct (loop_step_Some _ _ E1) as (d1 & ds & c1 & cs & _ & _ & ->).
        cbn [loop_body settlements initial_state] in Hmore.
        rewrite Hnil in Es. rewrite <- Es in Hmore.
        cbn [app] in Hmore. discriminate.
    + apply loop_step_None in E1. cbn [initial_state debtors creditors] in E1.
      destruct E1 as [E1 | E1]; rewrite E1 in *; contradiction.
  - apply one_sided_plan_empty.
Qed.

(** X2: on a sheet whose members have distinct ids nobody is asked to pay
    themselves: the two parties of every entry are different members. *)
Theorem no_self_payment (balances : list Balance.t) :
  NoDup (balance_ids balances) ->
  Forall (fun s => Member.id (Settlement.from s) <> Member.id (Settlement.to s))
    (calculateSettlements balances).
Proof.
  intro Hnd.
  destruct (calculateSettlements_final balances) as (final & _ & -> & Hr & _).
  destruct (reaches_parties _ _ Hr) as (_ & _ & Hs).
  eapply Forall_impl; [|exact Hs].
  intros s [(d & Hd & Ed & Hneg) (c & Hc & Ec & Hpos)] Heq.
  rewrite <- Ed, <- Ec in Heq. cbn [Balance.member Member.id] in Heq.
  assert (d = c) by (apply (NoDup_map_eq Balance.id balances); assumption).
  subst c. unfold is_debtor, is_creditor in *. lra.
Qed.

Lemma no_self_payment_witness :
  NoDup (balance_ids residue_sheet)
  /\ Forall (fun s => Member.id (Settlement.from s) <> Member.id (Settlement.to s))
       (calculateSettlements residue_sheet).
Proof.
  assert (H : NoDup (balance_ids residue_sheet)).
  { cbn. repeat constructor; cbn; intuition discriminate. }
  split; [exact H | exact (no_self_payment residue_sheet H)].
Defined.

(** X3: booking the plan moves money between members and creates none: on
    a sheet with distinct ids the members are the same afterwards and the
    balances have the same total. *)
Theorem plan_preserves_total (balances : list Balance.t) :
  NoDup (balance_ids balances) ->
  let sheet := after_plan balances (calculateSettlements balances) in
  balance_ids sheet = balance_ids balances
  /\ map Balance.member sheet = map Balance.member balances
  /\ sum_balances sheet == sum_balances balances.
Proof.
  intros Hnd sheet.
  destruct (calculateSettlements_final balances) as (final & _ & Es & Hr & _).
  assert (Hbal : books_balance balances final).
  { refine (reaches_invariant (books_balance balances) _ _ _ Hr _).
    - intros st st'. apply books_balance_step. exact Hnd.
    - apply books_balance_initial. }
  destruct Hbal as (Hids & _ & Hsum). subst sheet. rewrite Es.
  split; [exact Hids|]. split; [|exact Hsum].
  clear. unfold after_plan. generalize balances.
  induction (settlements final) as [|s plan IH]; intro l; cbn [fold_left];
    [reflexivity|].
  rewrite IH. unfold pay, adjust. rewrite !map_map. apply map_ext.
  intro b. destruct (Balance.id b =? _)%string;
    cbn [Balance.with_balance Balance.id];
    destruct (Balance.id b =? _)%string; reflexivity.
Qed.

Lemma plan_preserves_total_witness :
  NoDup (balance_ids residue_sheet)
  /\ balance_ids (after_plan residue_sheet (calculateSettlements residue_sheet))
     = balance_ids residue_sheet
  /\ map Balance.member
       (after_plan residue_sheet (calculateSettlements residue_sheet))
     = map Balance.member residue_sheet
  /\ sum_balances (after_plan residue_sheet (calculateSettlements residue_sheet))
     == sum_balances residue_sheet.
Proof.
  assert (H : NoDup (balance_ids residue_sheet)).
  { cbn. repeat constructor; cbn; intuition discriminate. }
  split; [exact H | exact (plan_preserves_total residue_sheet H)].
Defined.

Lemma heads_distinct (d c : Balance.t) (ds cs : list Balance.t) :
  NoDup (balance_ids ((d :: ds) ++ c :: cs)) -> Balance.id d <> Balance.id c.
Proof.
  unfold balance_ids. cbn [app map]. intro Hnd.
  apply NoDup_cons_iff in Hnd. destruct Hnd as [Hnd _].
  intro Heq. apply Hnd. rewrite map_app, in_app_iff. right. left.
  symmetry. exact Heq.
Qed.

Lemma no_overshoot_step (balances : list Balance.t) (st st' : LoopState) :
  books_agree (fun _ => True) (fun _ => True) balances st ->
  no_overshoot balances (after_plan balances (settlements st)) ->
  loop_step st = Some st' ->
  no_overshoot balances (after_plan balances (settlements st')).
Proof.
  intros (Hnd & Hd & Hc & _ & Hagree & _) Hover E.
  destruct (loop_step_Some _ _ E) as (d & ds & c & cs & Ed & Ec & ->).
  rewrite Ed, Ec in *.
  pose proof (heads_distinct _ _ _ _ Hnd) as Hdc.
  inversion_clear Hd as [|? ? Hd0 _]. inversion_clear Hc as [|? ? Hc0 _].
  unfold is_debtor, is_creditor in *.
  assert (Hhead_d : In d ((d :: ds) ++ c :: cs)) by (left; reflexivity).
  assert (Hhead_c : In c ((d :: ds) ++ c :: cs))
    by (apply in_app_iff; right; left; reflexivity).
  pose proof (transfer_pos _ _ Hd0 Hc0) as Hpos.
  pose proof (Q.le_min_l (- Balance.balance d) (Balance.balance c)) as Hl.
  pose proof (Q.le_min_r (- Balance.balance d) (Balance.balance c)) as Hr.
  cbn [loop_body settlements]. rewrite after_plan_snoc.
  intros b0 b' Hb0 Hb' Eid.
  apply in_pay in Hb'; [|exact Hdc].
  cbn [Settlement.from Settlement.to Settlement.amount Balance.member Member.id] in Hb'.
  destruct Hb' as (b & Hb & Eid' & Hcase).
  assert (Hbet : between_zero (Balance.balance b0) (Balance.balance b))
    by (apply Hover; [assumption | assumption | congruence]).
  unfold between_zero in *.
  destruct Hcase as [[Ek ->] | [[Ek ->] | (_ & _ & ->)]].
  - pose proof (Hagree b d Hb Hhead_d Ek). lra.
  - pose proof (Hagree b c Hb Hhead_c Ek). lra.
  - exact Hbet.
Qed.

(** X4: the plan never asks a member for more than they owe nor hands a
    member more than they are owed.  On a sheet with distinct ids, after the
    entries are booked every member's balance lies between their input
    balance and zero: a debtor ends at or below zero, a creditor at or above
    zero, and a member at zero stays there. *)
Theorem plan_never_overshoots (balances : list Balance.t) :
  NoDup (balance_ids balances) ->
  no_overshoot balances (after_plan balances (calculateSettlements balances)).
Proof.
  intro Hnd.
  destruct (calculateSettlements_final balances) as (final & _ & -> & Hr & _).
  assert (H : books_agree (fun _ => True) (fun _ => True) balances final
              /\ no_overshoot balances (after_plan balances (settlements final))).
  { refine (reaches_invariant
              (fun st => books_agree (fun _ => True) (fun _ => True) balances st
                         /\ no_overshoot balances
                              (after_plan balances (settlements st)))
              _ _ _ Hr _).
    - intros st st' [Hb Ho] E. split.
      + apply (books_agree_step (fun _ => True) (fun _ => True)) with (st := st);
          auto.
      + apply (no_overshoot_step balances st st'); assumption.
    - split.
      + apply (books_agree_initial (fun _ => True) (fun _ => True)
                 (fun _ _ _ H => H) I balances Hnd).
        apply Forall_forall. intros; exact I.
      + intros b0 b Hb0 Hb Eid. cbn [initial_state settlements after_plan fold_left] in Hb.
        rewrite (NoDup_map_eq Balance.id balances b b0 Hnd Hb Hb0 Eid).
        unfold between_zero.
        destruct (Qlt_le_dec (Balance.balance b0) 0); [left | right]; lra. }
  exact (proj2 H).
Qed.

Lemma plan_never_overshoots_witness :
  NoDup (balance_ids residue_sheet)
  /\ no_overshoot residue_sheet
       (after_plan residue_sheet (calculateSettlements residue_sheet)).
Proof.
  assert (H : NoDup (balance_ids residue_sheet)).
  { cbn. repeat constructor; cbn; intuition discriminate. }
  split; [exact H | exact (plan_never_overshoots residue_sheet H)].
Defined.

(** The head of a sorted array is a least element for the comparator. *)
Lemma js_sort_head {A : Type} (cmp : A -> A -> Q) (f : A -> Q) :
  (forall a b, cmp a b == f a - f b) ->
  forall l x rest, js_sort cmp l = x :: rest ->
                   forall y, In y rest -> f x <= f y.
Proof.
  intros Hcmp. induction l as [|a l IH]; intros x rest E y Hy; [discriminate|].
  cbn [js_sort] in E. destruct (js_sort cmp l) as [|h t] eqn:El.
  - cbn [sort_insert] in E. injection E as <- <-. contradiction.
  - cbn [sort_insert] in E. destruct (Qle_bool (cmp a h) 0) eqn:Ec.
    + injection E as <- <-. apply Qle_bool_iff in Ec. rewrite Hcmp in Ec.
      destruct Hy as [<- | Hy]; [lra|].
      pose proof (IH h t eq_refl y Hy). lra.
    + injection E as <- <-.
      assert (Hlt : f h < f a).
      { apply Qnot_le_lt. intro Hle.
        assert (Qle_bool (cmp a h) 0 = true)
          by (apply Qle_bool_iff; rewrite Hcmp; lra).
        congruence. }
      apply (Permutation_in _ (Permutation_sym (sort_insert_perm cmp a t))) in Hy.
      destruct Hy as [<- | Hy]; [lra|]. apply (IH h t eq_refl y Hy).
Qed.

Lemma plan_of_first_turn (balances : list Balance.t) (d c : Balance.t)
  (ds cs : list Balance.t) :
  initial_debtors balances = d :: ds ->
  initial_creditors balances = c :: cs ->
  exists rest,
    calculateSettlements balances
    = Settlement.mk (Balance.member d) (Balance.member c)
        (Qmin (- Balance.balance d) (Balance.balance c)) :: rest.
Proof.
  intros Ed Ec.
  destruct (calculateSettlements_final balances) as (final & Hw & -> & _ & _).
  assert (E1 : loop_step (initial_state balances)
               = Some (loop_body d ds c cs [])).
  { unfold loop_step, initial_state. cbn [debtors creditors settlements].
    rewrite Ed, Ec. reflexivity. }
  destruct (loop_measure (initial_state balances)) as [|fuel] eqn:Em.
  - apply loop_step_measure in E1. lia.
  - cbn [while_loop] in Hw. rewrite E1 in Hw.
    destruct (while_loop_reaches _ _ _ Hw) as [Hr _].
    destruct (reaches_grows _ _ Hr) as [more ->].
    exists more. reflexivity.
Qed.

(** X5: the matching is greedy.  Unless the plan is empty, its first entry
    has the member with the lowest balance pay the member with the highest
    balance, and the amount is the smaller of the debt and the credit. *)
Theorem first_entry_is_greedy (balances : list Balance.t) :
  calculateSettlements balances = []
  \/ exists d c rest,
       In d balances /\ In c balances
       /\ calculateSettlements balances
          = Settlement.mk (Balance.member d) (Balance.member c)
              (Qmin (- Balance.balance d) (Balance.balance c)) :: rest
       /\ Forall (fun b => Balance.balance d <= Balance.balance b
                           /\ Balance.balance b <= Balance.balance c) balances.
Proof.
  destruct (initial_debtors balances) as [|d0 ds] eqn:Ed.
  { left. apply one_sided_plan_empty. left. apply Forall_forall. intros b Hb.
    destruct (Qlt_le_dec (Balance.balance b) 0) as [Hlt | Hge]; [|exact Hge].
    assert (Hin : In (copy_balance b) (initial_debtors balances))
      by (apply initial_debtors_In; eauto).
    rewrite Ed in Hin. contradiction. }
  destruct (initial_creditors balances) as [|c0 cs] eqn:Ec.
  { left. apply one_sided_plan_empty. right. apply Forall_forall. intros b Hb.
    destruct (Qlt_le_dec 0 (Balance.balance b)) as [Hlt | Hge]; [|exact Hge].
    assert (Hin : In (copy_balance b) (initial_creditors balances))
      by (apply initial_creditors_In; eauto).
    rewrite Ec in Hin. contradiction. }
  right.
  destruct (plan_of_first_turn balances d0 c0 ds cs Ed Ec) as [rest Hplan].
  assert (Hd0 : In d0 (initial_debtors balances)) by (rewrite Ed; left; reflexivity).
  assert (Hc0 : In c0 (initial_creditors balances)) by (rewrite Ec; left; reflexivity).
  apply initial_debtors_In in Hd0. destruct Hd0 as (d & Hd & Hneg & ->).
  apply initial_creditors_In in Hc0. destruct Hc0 as (c & Hc & Hpos & ->).
  exists d, c, rest. split; [exact Hd|]. split; [exact Hc|]. split; [exact Hplan|].
  apply Forall_forall. intros b Hb. split.
  - destruct (Qlt_le_dec (Balance.balance b) 0) as [Hlt | Hge]; [|lra].
    assert (Hin : In (copy_balance b) (initial_debtors balances))
      by (apply initial_debtors_In; eauto).
    rewrite Ed in Hin. destruct Hin as [E | Hin].
    + apply (f_equal Balance.balance) in E.
      cbn [copy_balance Balance.balance] in E. rewrite E. apply Qle_refl.
    + unfold initial_debtors in Ed.
      apply (js_sort_head _ Balance.balance (fun a b => Qeq_refl _) _ _ _ Ed _ Hin).
  - destruct (Qlt_le_dec 0 (Balance.balance b)) as [Hlt | Hge]; [|lra].
    assert (Hin : In (copy_balance b) (initial_creditors balances))
      by (apply initial_creditors_In; eauto).
    rewrite Ec in Hin. destruct Hin as [E | Hin].
    + apply (f_equal Balance.balance) in E.
      cbn [copy_balance Balance.balance] in E. rewrite E. apply Qle_refl.
    + unfold initial_creditors in Ec.
      assert (Hcmp : forall x y : Balance.t,
                 Balance.balance y - Balance.balance x
                 == - Balance.balance x - - Balance.balance y)
        by (intros; ring).
      pose proof (js_sort_head _ (fun x => - Balance.balance x) Hcmp
                    _ _ _ Ec _ Hin) as H.
      cbn [copy_balance Balance.balance] in H. cbn beta in H. lra.
Qed.

(** * Further properties of the balance engine *)

Lemma modify_balance_at (f : Q -> Q) (o o' : store) (k' k : string) :
  modify_balance f o k' = Ok o' ->
  balance_at o' k = if (k' =? k)%string then f (balance_at o k) else balance_at o k.
Proof.
  unfold modify_balance. destruct (JsObject.get o k') as [b|] eqn:E; [|discriminate].
  intro H. injection H as <-. unfold balance_at. rewrite get_alter.
  destruct (String.eqb_spec k' k) as [<- | _]; [|reflexivity].
  rewrite E. reflexivity.
Qed.

Lemma modify_balance_keys (f : Q -> Q) (o o' : store) (k : string) :
  modify_balance f o k = Ok o' -> store_members o' = store_members o.
Proof.
  unfold modify_balance. destruct (JsObject.get o k); [|discriminate].
  intro H. injection H as <-. apply alter_members.
Qed.

Lemma credit_payer_at (o o' : store) (e : Expense.t) (k : string) :
  credit_payer o e = Ok o' -> In k (JsObject.keys o) ->
  balance_at o' k == balance_at o k + paid_by k e.
Proof.
  unfold credit_payer, paid_by. intros H Hk.
  destruct (JsObject.get o (Expense.paidBy e)) eqn:E.
  - rewrite (modify_balance_at _ _ _ _ k H).
    destruct (Expense.paidBy e =? k)%string; ring.
  - injection H as <-. destruct (String.eqb_spec (Expense.paidBy e) k) as [Ek | _].
    + subst k. apply get_None_keys in E. contradiction.
    + ring.
Qed.

Lemma credit_payer_members (o o' : store) (e : Expense.t) :
  credit_payer o e = Ok o' -> store_members o' = store_members o.
Proof.
  unfold credit_payer. destruct (JsObject.get o (Expense.paidBy e)).
  - apply modify_balance_keys.
  - intro H. injection H as <-. reflexivity.
Qed.

Lemma subtract_split_members (o o' : store) (s : Split.t) :
  subtract_split o s = Ok o' -> store_members o' = store_members o.
Proof.
  unfold subtract_split. destruct (JsObject.get o (Split.memberId s)).
  - apply modify_balance_keys.
  - intro H. injection H as <-. reflexivity.
Qed.

Lemma subtract_split_at (o o' : store) (s : Split.t) (k : string) :
  subtract_split o s = Ok o' ->
  In k (JsObject.keys o) ->
  balance_at o' k
  == balance_at o k
     - (if (Split.memberId s =? k)%string then or_zero (Split.amount s) else 0).
Proof.
  unfold subtract_split. intros H Hk.
  destruct (JsObject.get o (Split.memberId s)) eqn:E.
  - rewrite (modify_balance_at _ _ _ _ k H).
    destruct (Split.memberId s =? k)%string; ring.
  - injection H as <-. destruct (String.eqb_spec (Split.memberId s) k) as [Ek | _].
    + subst k. apply get_None_keys in E. contradiction.
    + ring.
Qed.

Lemma splits_at (k : string) (splits : list Split.t) :
  forall o o', forEach subtract_split splits o = Ok o' ->
               In k (JsObject.keys o) ->
               balance_at o' k == balance_at o k - split_charge k splits.
Proof.
  induction splits as [|s splits IH]; intros o o' H Hk;
    cbn [forEach split_charge fold_right] in *.
  - injection H as <-. ring.
  - fold (split_charge k splits).
    destruct (subtract_split o s) as [o1|] eqn:E1; [|discriminate].
    cbn [bind] in H.
    rewrite (IH o1 o' H), (subtract_split_at _ _ _ _ E1 Hk).
    + destruct (Split.memberId s =? k)%string; ring.
    + rewrite (store_members_keys _ _ (subtract_split_members _ _ _ E1)). exact Hk.
Qed.

Lemma shares_at (share : Q) (members : list Member.t) (o o' : store) (k : string) :
  NoDup (member_ids members) ->
  forEach (subtract_share share) members o = Ok o' ->
  In k (member_ids members) -> In k (JsObject.keys o) ->
  balance_at o' k = balance_at o k - share.
Proof.
  intros Hnd H Hk Hko. unfold balance_at.
  rewrite (shares_get _ _ Hnd _ _ H k).
  destruct (in_dec string_dec k (member_ids members)); [|contradiction].
  destruct (get_In_keys o k Hko) as [b ->]. reflexivity.
Qed.

Lemma apply_expense_members (members : list Member.t) (o o' : store)
  (e : Expense.t) :
  keys_cover members o -> apply_expense members o e = Ok o' ->
  store_members o' = store_members o.
Proof.
  intros Hk H. destruct (apply_expense_total members o e Hk) as (o1 & E & Hm).
  rewrite E in H. injection H as <-. exact Hm.
Qed.

Lemma apply_expense_at (members : list Member.t) (o o' : store) (e : Expense.t)
  (k : string) :
  NoDup (member_ids members) -> keys_cover members o ->
  apply_expense members o e = Ok o' -> In k (member_ids members) ->
  balance_at o' k == balance_at o k + paid_by k e - owed_by members k e.
Proof.
  intros Hnd Hcov H Hk. unfold apply_expense in H.
  destruct (credit_payer o e) as [o1|] eqn:E1; [|discriminate]. cbn [bind] in H.
  assert (Hk0 : In k (JsObject.keys o)) by (apply Hcov; exact Hk).
  assert (Hk1 : In k (JsObject.keys o1))
    by (rewrite (store_members_keys _ _ (credit_payer_members _ _ _ E1)); exact Hk0).
  unfold apply_split in H. unfold owed_by.
  destruct (custom_splits e) as [splits|].
  - rewrite (splits_at k splits o1 o' H Hk1), (credit_payer_at _ _ _ _ E1 Hk0). ring.
  - rewrite (shares_at _ _ _ _ k Hnd H Hk Hk1), (credit_payer_at _ _ _ _ E1 Hk0).
    ring.
Qed.

Lemma ledger_at (members : list Member.t) (k : string) :
  NoDup (member_ids members) -> In k (member_ids members) ->
  forall expenses o o',
    keys_cover members o ->
    forEach (apply_expense members) expenses o = Ok o' ->
    balance_at o' k == balance_at o k + net_of members k expenses.
Proof.
  intros Hnd Hk. induction expenses as [|e es IH]; intros o o' Hcov H;
    cbn [forEach net_of fold_right] in *.
  - injection H as <-. ring.
  - fold (net_of members k es).
    destruct (apply_expense members o e) as [o1|] eqn:E1; [|discriminate].
    cbn [bind] in H.
    rewrite (IH o1 o' (keys_cover_members _ _ _
                         (apply_expense_members _ _ _ _ Hcov E1) Hcov) H).
    rewrite (apply_expense_at _ _ _ _ k Hnd Hcov E1 Hk). ring.
Qed.

Lemma init_balance_at (members : list Member.t) (k : string) :
  balance_at (init_balances members) k = 0.
Proof.
  unfold balance_at.
  destruct (JsObject.get (init_balances members) k) as [b|] eqn:E; [|reflexivity].
  apply get_Some_In in E.
  pose proof (init_Forall (fun e => Balance.balance (snd e) = 0) members
                (fun m _ => eq_refl)) as H.
  rewrite Forall_forall in H. apply (H _ E).
Qed.

(** The entries that [Object.values] returns for a group with distinct ids. *)
Lemma values_entry (members : list Member.t) (o : store) (b : Balance.t) :
  store_members o = map (fun x => (Member.id x, x)) members ->
  NoDup (member_ids members) ->
  In b (JsObject.values o) ->
  In (Balance.id b) (member_ids members)
  /\ Balance.balance b = balance_at o (Balance.id b).
Proof.
  intros Hm Hnd Hb. apply values_In in Hb. destruct Hb as [k Hb].
  assert (Hkeys : JsObject.keys o = member_ids members).
  { rewrite keys_store_members, Hm, map_map. reflexivity. }
  assert (Hid : Balance.id b = k).
  { apply (in_map (fun e => (fst e, Balance.member (snd e)))) in Hb.
    fold (store_members o) in Hb. rewrite Hm in Hb. cbn [fst snd] in Hb.
    apply in_map_iff in Hb. destruct Hb as (x & Ex & _).
    injection Ex as <- Ex. rewrite Ex. reflexivity. }
  subst k. split.
  - rewrite <- Hkeys. apply (in_map fst) in Hb. exact Hb.
  - unfold balance_at. rewrite (In_get o _ b); [reflexivity | | exact Hb].
    rewrite Hkeys. exact Hnd.
Qed.




Lemma values_store_members (o : store) :
  map Balance.member (JsObject.values o) = JsObject.values (store_members o).
Proof.
  unfold JsObject.values, store_members.
  rewrite (entries_map Balance.member o), !map_map. reflexivity.
Qed.











(** X10: a group without expenses owes nothing: every balance is zero and
    the plan computed from the balances is empty. *)
Theorem no_expenses_no_debts (members : list Member.t) :
  exists balances,
    computeBalances members [] = Ok balances
    /\ Forall (fun b => Balance.balance b = 0) balances
    /\ calculateSettlements balances = [].
Proof.
  assert (G : exists balances,
             computeBalances members [] = Ok balances
             /\ Forall (fun b => Balance.balance b = 0) balances).
  { destruct members as [|m members].
    - exists []. split; [reflexivity | constructor].
    - exists (JsObject.values (init_balances (m :: members))).
      split; [reflexivity|].
      pose proof (init_Forall (fun e => Balance.balance (snd e) = 0) (m :: members)
                    (fun x _ => eq_refl)) as H.
      unfold JsObject.values. apply Forall_map.
      rewrite Forall_forall in *. intros e He. apply H.
      apply (Permutation_in e (entries_perm _)). exact He. }
  destruct G as (balances & E & Hz). exists balances.
  split; [exact E|]. split; [exact Hz|].
  apply one_sided_plan_empty. left.
  eapply Forall_impl; [|exact Hz]. intros b Hb. rewrite Hb. apply Qle_refl.
Qed.

(** * The advisor's shares *)









(** * Totals and categories *)










(** * The expense form *)

Lemma draft_rows_invariant (members : option (list Member.t)) (d : Draft.t) :
  draft_of members d ->
  if (Draft.splitType d =? "unequal")%string
  then map DraftSplit.memberId (Draft.splits d) = member_ids (or_empty members)
  else Draft.splits d = [].
Proof.
  induction 1 as [payer | name value d _ IH | k value d _ IH].
  - reflexivity.
  - unfold handleInputChange.
    destruct (name =? "splitType")%string.
    { cbn [Draft.splitType Draft.splits].
      destruct (value =? "unequal")%string; [|reflexivity].
      unfold member_ids. rewrite map_map. reflexivity. }
    destruct (name =? "description")%string; [exact IH|].
    destruct (name =? "amount")%string; [exact IH|].
    destruct (name =? "paidBy")%string; [exact IH|].
    destruct (name =? "category")%string; exact IH.
  - unfold handleCustomSplitChange. cbn [Draft.splitType Draft.splits].
    destruct (Draft.splitType d =? "unequal")%string.
    + rewrite <- IH, map_map. apply map_ext. intro s.
      destruct (DraftSplit.memberId s =? k)%string; reflexivity.
    + rewrite IH. reflexivity.
Qed.

(** X13: whatever the user does with the form, its rows of custom amounts
    are the members of the group, in order, while the split type is
    'unequal', and there are none otherwise. *)
Theorem draft_rows (members : option (list Member.t)) (d : Draft.t) :
  draft_of members d ->
  (Draft.splitType d = "unequal"%string ->
   map DraftSplit.memberId (Draft.splits d) = member_ids (or_empty members))
  /\ (Draft.splitType d <> "unequal"%string -> Draft.splits d = []).
Proof.
  intro H. apply draft_rows_invariant in H.
  destruct (String.eqb_spec (Draft.splitType d) "unequal") as [E | E];
    split; intro H'; congruence.
Qed.

Lemma sample_draft_of : draft_of (Some [alice; bob]) sample_draft.
Proof. unfold sample_draft. repeat constructor. Qed.

Lemma draft_rows_witness :
  draft_of (Some [alice; bob]) sample_draft
  /\ (Draft.splitType sample_draft = "unequal"%string ->
      map DraftSplit.memberId (Draft.splits sample_draft)
      = member_ids (or_empty (Some [alice; bob])))
  /\ (Draft.splitType sample_draft <> "unequal"%string ->
      Draft.splits sample_draft = []).
Proof.
  split; [exact sample_draft_of|].
  exact (draft_rows (Some [alice; bob]) sample_draft sample_draft_of).
Defined.

(** X14: editing a custom amount touches the rows of that member only: the
    rows keep their members and order, every row of [memberId] holds the new
    text, every other row is as before; a second edit of the same member
    overwrites the first, and edits of different members commute. *)
Theorem custom_split_edit (memberId value : string) (d : Draft.t) :
  let d' := handleCustomSplitChange memberId value d in
  map DraftSplit.memberId (Draft.splits d')
  = map DraftSplit.memberId (Draft.splits d)
  /\ Forall2
       (fun s s' =>
          if (DraftSplit.memberId s =? memberId)%string
          then DraftSplit.amount s' = value
          else s' = s)
       (Draft.splits d) (Draft.splits d')
  /\ (forall value0,
         handleCustomSplitChange memberId value
           (handleCustomSplitChange memberId value0 d) = d')
  /\ (forall other value0,
         other <> memberId ->
         handleCustomSplitChange memberId value
           (handleCustomSplitChange other value0 d)
         = handleCustomSplitChange other value0 d').
Proof.
  intro d'. subst d'. unfold handleCustomSplitChange.
  cbn [Draft.splits Draft.description Draft.amount Draft.paidBy Draft.splitType
       Draft.category].
  split; [|split; [|split]].
  - rewrite map_map. apply map_ext. intro s.
    destruct (DraftSplit.memberId s =? memberId)%string; reflexivity.
  - induction (Draft.splits d) as [|s l IH]; cbn [map]; constructor; [|exact IH].
    destruct (DraftSplit.memberId s =? memberId)%string; reflexivity.
  - intro value0. f_equal. rewrite map_map. apply map_ext. intro s.
    destruct (DraftSplit.memberId s =? memberId)%string eqn:Em;
      cbn [DraftSplit.memberId]; rewrite Em; reflexivity.
  - intros other value0 Hne. f_equal. rewrite !map_map. apply map_ext. intro s.
    destruct (DraftSplit.memberId s =? other)%string eqn:Eo;
      destruct (DraftSplit.memberId s =? memberId)%string eqn:Em;
      cbn [DraftSplit.memberId]; rewrite ?Eo, ?Em; try reflexivity.
    apply String.eqb_eq in Eo, Em. congruence.
Qed.

(** X15: the submit button and [handleSubmit] judge a draft by two
    conditions written separately, and these differ on one point.  With a
    [parseFloat] that gives [NaN] on the empty text, every draft that
    [handleSubmit] accepts has its button enabled; a draft whose button is
    enabled is accepted whenever its amount parses, and is rejected with the
    fill-all-fields message when it does not. *)
Theorem button_and_submit (parseFloat : string -> option Q) (d : Draft.t) :
  parseFloat ""%string = None ->
  ((exists logged, handleSubmit parseFloat d = inr logged) ->
   isFormInvalid parseFloat d = false)
  /\ (isFormInvalid parseFloat d = false ->
      match parseFloat (Draft.amount d) with
      | Some _ => exists logged, handleSubmit parseFloat d = inr logged
      | None => handleSubmit parseFloat d = inl FillAllFields
      end).
Proof.
  intro Hempty. unfold handleSubmit, isFormInvalid.
  destruct (parseFloat (Draft.amount d)) as [amount|] eqn:Ea.
  - destruct (Draft.description d =? "")%string; cbn [orb].
    { split; [intros [l H]; discriminate | discriminate]. }
    destruct (String.eqb_spec (Draft.amount d) "") as [E | _]; cbn [orb].
    { rewrite E, Hempty in Ea. discriminate. }
    destruct (Qle_bool amount 0) eqn:Ele; cbn [orb].
    { rewrite orb_true_r. cbn [orb].
      split; [intros [l H]; discriminate | discriminate]. }
    assert (En : Qeq_bool amount 0 = false).
    { destruct (Qeq_bool amount 0) eqn:E0; [|reflexivity].
      apply Qeq_bool_iff in E0.
      assert (Qle_bool amount 0 = true) by (apply Qle_bool_iff; lra).
      congruence. }
    rewrite En. cbn [orb].
    destruct (Draft.paidBy d =? "")%string; cbn [orb].
    { split; [intros [l H]; discriminate | discriminate]. }
    destruct (splits_off parseFloat d).
    + split; [intros [l H]; discriminate | discriminate].
    + split; [reflexivity | intros _; eauto].
  - split; [intros [l H]; discriminate | reflexivity].
Qed.

Lemma button_and_submit_witness :
  sample_parseFloat ""%string = None
  /\ ((exists logged, handleSubmit sample_parseFloat sample_draft = inr logged) ->
      isFormInvalid sample_parseFloat sample_draft = false)
  /\ (isFormInvalid sample_parseFloat sample_draft = false ->
      match sample_parseFloat (Draft.amount sample_draft) with
      | Some _ => exists logged, handleSubmit sample_parseFloat sample_draft = inr logged
      | None => handleSubmit sample_parseFloat sample_draft = inl FillAllFields
      end).
Proof.
  split; [reflexivity|].
  exact (button_and_submit sample_parseFloat sample_draft eq_refl).
Defined.








(** ** Creating a group *)

Lemma number_to_string_inj (n n' : N) :
  number_to_string n = number_to_string n' -> n = n'.
Proof.
  unfold number_to_string. intro H. apply DecimalN.Unsigned.to_uint_inj.
  assert (Some (N.to_uint n) = Some (N.to_uint n')) as E
    by (rewrite <- !NilEmpty.usu, H; reflexivity).
  congruence.
Qed.

(** Filtering rows keeps their keys distinct. *)
Lemma kept_keys_distinct {Row Key : Type} (key : Row -> Key) (keep : Row -> bool) :
  forall rows : list Row,
    NoDup (map key rows) -> NoDup (map key (filter keep rows)).
Proof.
  intro rows. induction rows as [|r rows IH]; cbn [map filter]; intro H.
  - constructor.
  - pose proof (NoDup_cons_iff (key r) (map key rows)) as Hc.
    apply Hc in H. destruct H as (Hout & Hrest).
    destruct (keep r); [|exact (IH Hrest)].
    cbn [map]. constructor; [|exact (IH Hrest)].
    intro Hin. apply Hout. apply in_map_iff in Hin.
    destruct Hin as (x & E & Hx). apply filter_In in Hx.
    apply in_map_iff. exists x. tauto.
Qed.

Lemma editor_rows (st : Editor.t) :
  CreateGroupScreen.state st ->
  (2 <= Editor.nextMemberId st)%nat
  /\ NoDup (map Row.id (Editor.members st))
  /\ Forall (fun m => (1 <= Row.id m < Editor.nextMemberId st)%nat)
       (Editor.members st).
Proof.
  induction 1 as [|id newName st _ (Hc & Hn & Hb)|st _ (Hc & Hn & Hb)
                  |id st _ (Hc & Hn & Hb)].
  - unfold CreateGroupScreen.initial.
    cbn [Editor.members Editor.nextMemberId map Row.id].
    split; [lia|]. split; [constructor; [intros []|constructor]|].
    constructor; [cbn [Row.id]; lia|constructor].
  - cbn [CreateGroupScreen.handleMemberNameChange Editor.members
         Editor.nextMemberId].
    assert (E : map Row.id
                  (map (fun m => if (Row.id m =? id)%nat
                                 then Row.mk (Row.id m) newName else m)
                     (Editor.members st))
                = map Row.id (Editor.members st)).
    { rewrite map_map. apply map_ext. intro m.
      destruct (Row.id m =? id)%nat; reflexivity. }
    split; [exact Hc|]. split; [rewrite E; exact Hn|].
    apply Forall_map. revert Hb. apply Forall_impl. intros m Hm.
    destruct (Row.id m =? id)%nat; exact Hm.
  - cbn [CreateGroupScreen.handleAddMember Editor.members Editor.nextMemberId].
    split; [lia|]. split.
    + rewrite map_app. cbn [map Row.id].
      apply NoDup_app; [exact Hn|constructor; [intros []|constructor]|].
      intros x Hx [<-|[]]. apply in_map_iff in Hx. destruct Hx as (m & E & Hm).
      rewrite Forall_forall in Hb. specialize (Hb m Hm). lia.
    + apply Forall_app. split.
      * revert Hb. apply Forall_impl. intros m Hm. lia.
      * constructor; [|constructor]. cbn [Row.id]. lia.
  - cbn [CreateGroupScreen.handleRemoveMember Editor.members
         Editor.nextMemberId].
    split; [exact Hc|]. split; [apply kept_keys_distinct; exact Hn|].
    apply Forall_forall. intros m Hm. apply filter_In in Hm.
    rewrite Forall_forall in Hb. apply Hb. tauto.
Qed.

Lemma other_rows_untouched (id : nat) (newName : string) (l : list Row.t) :
  ~ In id (map Row.id l) ->
  map (fun m => if (Row.id m =? id)%nat then Row.mk (Row.id m) newName else m) l
  = l
  /\ filter (fun m => negb (Row.id m =? id)%nat) l = l.
Proof.
  induction l as [|a l IH]; cbn [map filter In]; intro H; [split; reflexivity|].
  destruct IH as (IH1 & IH2); [tauto|].
  destruct (Nat.eqb_spec (Row.id a) id) as [E|E]; [tauto|].
  cbn [negb]. rewrite IH1, IH2. split; reflexivity.
Qed.

Lemma one_row_addressed (m : Row.t) (newName : string)
  (before after : list Row.t) :
  NoDup (map Row.id (before ++ m :: after)) ->
  map (fun x => if (Row.id x =? Row.id m)%nat
                then Row.mk (Row.id x) newName else x) (before ++ m :: after)
  = before ++ Row.mk (Row.id m) newName :: after
  /\ filter (fun x => negb (Row.id x =? Row.id m)%nat) (before ++ m :: after)
     = before ++ after.
Proof.
  intro Hn. rewrite map_app in Hn. cbn [map] in Hn.
  pose proof (NoDup_remove_2 _ _ _ Hn) as Hout.
  assert (Hb : ~ In (Row.id m) (map Row.id before))
    by (intro H; apply Hout; apply in_or_app; left; exact H).
  assert (Ha : ~ In (Row.id m) (map Row.id after))
    by (intro H; apply Hout; apply in_or_app; right; exact H).
  destruct (other_rows_untouched (Row.id m) newName before Hb) as (Eb1 & Eb2).
  destruct (other_rows_untouched (Row.id m) newName after Ha) as (Ea1 & Ea2).
  rewrite map_app, filter_app. cbn [map filter].
  rewrite Nat.eqb_refl. cbn [negb]. rewrite Eb1, Eb2, Ea1, Ea2.
  split; reflexivity.
Qed.

(** X17. In every state of the members editor of [CreateGroupScreen] the row
    ids are distinct, at least 1 and below [nextMemberId] (so the row that
    [handleAddMember] appends is new), and a row's id addresses that row
    alone: [handleMemberNameChange] with the id of a row replaces the name of
    that one row in place, and [handleRemoveMember] drops that one row;
    neither touches the other rows or the counter. *)
Theorem editor_rows_addressable (st : Editor.t) :
  CreateGroupScreen.state st ->
  NoDup (map Row.id (Editor.members st))
  /\ Forall (fun m => (1 <= Row.id m < Editor.nextMemberId st)%nat)
       (Editor.members st)
  /\ ~ In (Editor.nextMemberId st) (map Row.id (Editor.members st))
  /\ forall m, In m (Editor.members st) ->
       exists before after,
         Editor.members st = before ++ m :: after
         /\ (forall newName,
               CreateGroupScreen.handleMemberNameChange (Row.id m) newName st
               = Editor.mk (before ++ Row.mk (Row.id m) newName :: after)
                   (Editor.nextMemberId st))
         /\ CreateGroupScreen.handleRemoveMember (Row.id m) st
            = Editor.mk (before ++ after) (Editor.nextMemberId st).
Proof.
  intro Hst. destruct (editor_rows st Hst) as (_ & Hn & Hb).
  split; [exact Hn|]. split; [exact Hb|]. split.
  - intro Hin. apply in_map_iff in Hin. destruct Hin as (m & E & Hm).
    rewrite Forall_forall in Hb. specialize (Hb m Hm). lia.
  - intros m Hm.
    destruct (in_split _ _ Hm) as (before & after & E).
    exists before, after. split; [exact E|].
    unfold CreateGroupScreen.handleMemberNameChange,
      CreateGroupScreen.handleRemoveMember.
    rewrite E in Hn. rewrite E. split.
    + intro newName.
      destruct (one_row_addressed m newName before after Hn) as (-> & _).
      reflexivity.
    + destruct (one_row_addressed m EmptyString before after Hn) as (_ & ->).
      reflexivity.
Qed.

Lemma editor_rows_addressable_witness :
  CreateGroupScreen.state
    (CreateGroupScreen.handleMemberNameChange 2 "Ayla"
       (CreateGroupScreen.handleAddMember CreateGroupScreen.initial))
  /\ ~ In 3%nat [1%nat; 2%nat].
Proof.
  assert (H : CreateGroupScreen.state
                (CreateGroupScreen.handleMemberNameChange 2 "Ayla"
                   (CreateGroupScreen.handleAddMember CreateGroupScreen.initial)))
    by (apply CreateGroupScreen.state_rename, CreateGroupScreen.state_add,
          CreateGroupScreen.state_initial).
  split; [exact H|].
  exact (proj1 (proj2 (proj2 (editor_rows_addressable _ H)))).
Defined.

Lemma temp_ids (f : Row.t -> string) (now : nat -> N) (rows : list Row.t) :
  (forall i j, (i <= j)%nat -> (now i <= now j)%N) ->
  forall index,
    let ids :=
      member_ids
        (map_from
           (fun m i =>
              Member.mk ("temp_" ++ number_to_string (now i + N.of_nat i)) (f m))
           index rows) in
    NoDup ids
    /\ Forall (fun s => exists i, (index <= i)%nat
                 /\ s = ("temp_" ++ number_to_string (now i + N.of_nat i))%string)
         ids.
Proof.
  intro Hmono. induction rows as [|m rows IH]; intro index; cbn zeta.
  - cbn. split; constructor.
  - cbn [map_from member_ids map Member.id].
    destruct (IH (S index)) as (Hn & Hf). fold member_ids in *.
    split.
    + constructor; [|exact Hn]. intro Hin.
      rewrite Forall_forall in Hf. destruct (Hf _ Hin) as (i & Hi & E).
      cbn in E. injection E as E. apply number_to_string_inj in E.
      pose proof (Hmono index i ltac:(lia)). lia.
    + constructor; [exists index; split; [lia|reflexivity]|].
      revert Hf. apply Forall_impl. intros s (i & Hi & E).
      exists i. split; [lia|exact E].
Qed.

(** A group whose ids are distinct and are no array indices: the balances
    come in the order of the members. *)
Lemma plain_ids_in_order (m : Member.t) (members : list Member.t)
  (expenses : list Expense.t) :
  NoDup (member_ids (m :: members)) ->
  Forall (fun k => JsObject.is_index k = false) (member_ids (m :: members)) ->
  exists balances,
    computeBalances (m :: members) expenses = Ok balances
    /\ map Balance.member balances = m :: members.
Proof.
  intros Hnd Hidx.
  destruct (ledger_distinct m members expenses Hnd) as (o & _ & E & Hm & Hk).
  exists (JsObject.values o). split; [exact E|].
  rewrite values_store_members. unfold JsObject.values.
  rewrite entries_no_index.
  - rewrite Hm, map_map. cbn [snd]. apply map_id.
  - rewrite <- Hk in Hidx. unfold JsObject.keys in *. unfold store_members.
    rewrite map_map. cbn [fst]. exact Hidx.
Qed.

Lemma in_map_from {A B : Type} (f : A -> nat -> B) (xs : list A) :
  forall index y, In y (map_from f index xs) ->
                  exists x i, In x xs /\ y = f x i.
Proof.
  induction xs as [|x xs IH]; intros index y; cbn [map_from In]; [intros []|].
  intros [<-|H].
  - exists x, index. split; [left; reflexivity|reflexivity].
  - destruct (IH _ _ H) as (x' & i & Hx & E).
    exists x', i. split; [right; exact Hx|exact E].
Qed.

(** X18. A group made by the create-group form for a logged-in user: when
    the clock does not run backwards while [handleSubmit] maps over the rows,
    [handleCreateGroup] puts the user first, followed by members that each
    come from a row whose trimmed name is not empty and is not the user's
    name up to case; the ids of the group are distinct and none is an array
    index, so for every list of expenses [computeBalances] returns one
    balance per member in the order of the members. *)
Theorem created_group_members (trim toLowerCase : string -> string)
  (now : nat -> N) (login : N) (user : User.t)
  (groupName description : string) (st : Editor.t)
  (data : NewGroup.t) (group : Group.t) :
  (forall i j, (i <= j)%nat -> (now i <= now j)%N) ->
  User.id user = User.id (handleLogin login) ->
  CreateGroupScreen.handleSubmit trim now groupName description st = Some data ->
  handleCreateGroup trim toLowerCase (Some user) data = Some group ->
  exists others,
    Group.members group
    = Some (Member.mk (User.id user) (User.name user) :: others)
    /\ Group.expenses group = Some []
    /\ Forall
         (fun m =>
            (exists row, In row (Editor.members st)
                         /\ Member.name m = trim (Row.name row)
                         /\ Member.name m <> ""%string)
            /\ toLowerCase (trim (Member.name m))
               <> toLowerCase (trim (User.name user)))
         others
    /\ NoDup (member_ids (Member.mk (User.id user) (User.name user) :: others))
    /\ forall expenses,
         in_member_order (Member.mk (User.id user) (User.name user) :: others)
           expenses.
Proof.
  intros Hmono Hid Hs Hc.
  unfold CreateGroupScreen.handleSubmit in Hs.
  destruct (trim groupName =? "")%string; [discriminate|].
  injection Hs as <-.
  unfold handleCreateGroup in Hc. cbn [NewGroup.members] in Hc.
  injection Hc as <-. cbn [Group.members Group.expenses].
  set (others := filter _ (CreateGroupScreen.validMembers trim now st)).
  exists others. split; [reflexivity|]. split; [reflexivity|].
  destruct (temp_ids (fun m => trim (Row.name m)) now
              (filter (fun m => negb (trim (Row.name m) =? "")%string)
                 (Editor.members st)) Hmono 0%nat) as (Hn & Hf).
  fold (CreateGroupScreen.validMembers trim now st) in Hn, Hf.
  assert (Htemp : Forall (fun k => exists s, k = ("temp_" ++ s)%string)
                    (member_ids others)).
  { apply Forall_forall. intros k Hk. unfold member_ids in Hk.
    apply in_map_iff in Hk. destruct Hk as (m & <- & Hm).
    apply filter_In in Hm. destruct Hm as (Hm & _).
    rewrite Forall_forall in Hf.
    destruct (Hf (Member.id m)) as (i & _ & E).
    - unfold member_ids. apply in_map. exact Hm.
    - eexists. exact E. }
  assert (Hnd : NoDup (member_ids
                         (Member.mk (User.id user) (User.name user) :: others))).
  { cbn [member_ids map Member.id]. constructor.
    - intro Hin. rewrite Forall_forall in Htemp.
      destruct (Htemp _ Hin) as (s & E). rewrite Hid in E. discriminate E.
    - apply (kept_keys_distinct Member.id). exact Hn. }
  split; [|split; [exact Hnd|]].
  - apply Forall_forall. intros m Hm. apply filter_In in Hm.
    destruct Hm as (Hm & Hp). split.
    + apply in_map_from in Hm. destruct Hm as (row & i & Hrow & ->).
      apply filter_In in Hrow. destruct Hrow as (Hrow & Hne).
      exists row. cbn [Member.name]. split; [exact Hrow|].
      split; [reflexivity|].
      destruct (String.eqb_spec (trim (Row.name row)) ""); [discriminate|].
      assumption.
    + destruct (String.eqb_spec (toLowerCase (trim (Member.name m)))
                  (toLowerCase (trim (User.name user)))); [discriminate|].
      assumption.
  - intro expenses. apply plain_ids_in_order; [exact Hnd|].
    cbn [member_ids map Member.id]. constructor.
    + rewrite Hid. reflexivity.
    + fold (member_ids others). revert Htemp. apply Forall_impl.
      intros k (s & ->). reflexivity.
Qed.

Lemma created_group_members_witness :
  exists others,
    Some (Member.mk "local_user_1700000000000" "Demo Kullanıcı" :: others)
    = Some [Member.mk "local_user_1700000000000" "Demo Kullanıcı";
            Member.mk "temp_1700000005000" "Ayla";
            Member.mk "temp_1700000005001" "Can"]
    /\ forall expenses,
         in_member_order
           (Member.mk "local_user_1700000000000" "Demo Kullanıcı" :: others)
           expenses.
Proof.
  destruct (created_group_members (fun s => s) (fun s => s)
              (fun _ => 1700000005000%N) 1700000000000%N
              (handleLogin 1700000000000%N) "Tatil" ""
              (Editor.mk [Row.mk 1 "Ayla"; Row.mk 2 ""; Row.mk 3 "Can"] 4)
              (NewGroup.mk "Tatil" ""
                 [Member.mk "temp_1700000005000" "Ayla";
                  Member.mk "temp_1700000005001" "Can"])
              (Group.mk
                 (Some [Member.mk "local_user_1700000000000" "Demo Kullanıcı";
                        Member.mk "temp_1700000005000" "Ayla";
                        Member.mk "temp_1700000005001" "Can"])
                 (Some [])))
    as (others & E & _ & _ & _ & H).
  - intros i j _. lia.
  - reflexivity.
  - vm_compute. reflexivity.
  - vm_compute. reflexivity.
  - exists others. split; [symmetry; exact E|exact H].
Defined.

(** ** Adding an expense to a group *)

Lemma net_of_snoc (members : list Member.t) (k : string)
  (expenses : list Expense.t) (e : Expense.t) :
  net_of members k (expenses ++ [e])
  == net_of members k expenses + (paid_by k e - owed_by members k e).
Proof.
  unfold net_of. induction expenses as [|x expenses IH]; cbn [app fold_right].
  - ring.
  - rewrite IH. ring.
Qed.

Lemma selected_after_update (f : Stored.t -> Stored.t) (sel : string)
  (groups : list Stored.t) :
  (forall g, Stored.id (f g) = Stored.id g) ->
  selectedGroup (map f groups) sel = option_map f (selectedGroup groups sel).
Proof.
  intro Hid. unfold selectedGroup.
  induction groups as [|g groups IH]; cbn [map find]; [reflexivity|].
  rewrite Hid. destruct (Stored.id g =? sel)%string; [reflexivity|exact IH].
Qed.

Lemma selected_id (groups : list Stored.t) (sel : string) (g : Stored.t) :
  selectedGroup groups sel = Some g -> Stored.id g = sel.
Proof.
  unfold selectedGroup. intro H. apply find_some in H.
  destruct H as (_ & H). apply String.eqb_eq. exact H.
Qed.

Lemma paired_balances (P P' : Balance.t -> Prop) :
  forall l l' : list Balance.t,
    map Balance.member l = map Balance.member l' ->
    Forall P l -> Forall P' l' ->
    Forall2 (fun b b' => Balance.member b' = Balance.member b /\ P b /\ P' b')
      l l'.
Proof.
  induction l as [|b l IH]; intros [|b' l'] E H H'; try discriminate E.
  - constructor.
  - cbn [map] in E.
    assert (Eb : Balance.member b = Balance.member b') by congruence.
    assert (El : map Balance.member l = map Balance.member l') by congruence.
    inversion H; subst. inversion H'; subst.
    constructor; [split; [symmetry; exact Eb|split; assumption]|].
    apply IH; assumption.
Qed.

(** The balances of a group before and after one more expense. *)
Lemma balances_after_expense (members : list Member.t)
  (expenses : list Expense.t) (e : Expense.t) :
  NoDup (member_ids members) ->
  exists balances balances',
    computeBalances members expenses = Ok balances
    /\ computeBalances members (expenses ++ [e]) = Ok balances'
    /\ Forall2
         (fun b b' =>
            Balance.member b' = Balance.member b
            /\ Balance.balance b'
               == Balance.balance b
                  + (paid_by (Balance.id b) e - owed_by members (Balance.id b) e))
         balances balances'.
Proof.
  intro Hnd. destruct members as [|m members].
  - exists [], []. repeat split. constructor.
  - destruct (ledger_distinct m members expenses Hnd) as (o & E & -> & Hm & _).
    destruct (ledger_distinct m members (expenses ++ [e]) Hnd)
      as (o' & E' & -> & Hm' & _).
    exists (JsObject.values o), (JsObject.values o').
    split; [reflexivity|]. split; [reflexivity|].
    assert (H : Forall (fun b => Balance.balance b
                                 == net_of (m :: members) (Balance.id b) expenses)
                  (JsObject.values o)).
    { apply Forall_forall. intros b Hb.
      destruct (values_entry _ o b Hm Hnd Hb) as [Hk ->].
      rewrite (ledger_at _ _ Hnd Hk expenses _ o (init_keys _) E).
      rewrite init_balance_at. ring. }
    assert (H' : Forall (fun b => Balance.balance b
                                  == net_of (m :: members) (Balance.id b)
                                       (expenses ++ [e]))
                   (JsObject.values o')).
    { apply Forall_forall. intros b Hb.
      destruct (values_entry _ o' b Hm' Hnd Hb) as [Hk ->].
      rewrite (ledger_at _ _ Hnd Hk (expenses ++ [e]) _ o' (init_keys _) E').
      rewrite init_balance_at. ring. }
    assert (Em : map Balance.member (JsObject.values o)
                 = map Balance.member (JsObject.values o'))
      by (rewrite !values_store_members, Hm, Hm'; reflexivity).
    pose proof (paired_balances _ _ _ _ Em H H') as HF.
    revert HF. apply Forall2_impl. intros b b' (Eb & Hb & Hb').
    split; [exact Eb|].
    assert (Eid : Balance.id b' = Balance.id b)
      by (exact (f_equal Member.id Eb)).
    rewrite Hb', Eid, net_of_snoc, Hb. reflexivity.
Qed.

(** X19. [handleAddExpense] for a user, on the group that [selectedGroup]
    finds under a non-empty id: every other selection finds the group it
    found before; the selected group keeps its members, its [totalExpenses]
    grows by the amount of the new expense, and, when the ids of its members
    are distinct, its balances keep their members and order while each
    member's balance moves by what the new expense credits to that member
    minus what it charges. *)
Theorem added_expense_moves_balances (user : User.t) (groupId : string)
  (newExpense : Logged.t) (groups : list Stored.t) (g : Stored.t) :
  groupId <> ""%string ->
  selectedGroup groups groupId = Some g ->
  NoDup (member_ids (or_empty (Group.members (Stored.group g)))) ->
  let groups' := handleAddExpense (Some user) (Some groupId) newExpense groups in
  let e := Logged.expense newExpense in
  (forall other, other <> groupId ->
                 selectedGroup groups' other = selectedGroup groups other)
  /\ exists g',
       selectedGroup groups' groupId = Some g'
       /\ Group.members (Stored.group g') = Group.members (Stored.group g)
       /\ totalExpenses (Stored.group g')
          == totalExpenses (Stored.group g) + Expense.amount e
       /\ exists balances balances',
            group_balances (Stored.group g) = Ok balances
            /\ group_balances (Stored.group g') = Ok balances'
            /\ Forall2
                 (fun b b' =>
                    Balance.member b' = Balance.member b
                    /\ Balance.balance b'
                       == Balance.balance b
                          + (paid_by (Balance.id b) e
                             - owed_by (or_empty (Group.members (Stored.group g)))
                                 (Balance.id b) e))
                 balances balances'.
Proof.
  intros Hne Hsel Hnd groups' e. subst groups'.
  unfold handleAddExpense.
  destruct (String.eqb_spec groupId ""); [contradiction|].
  set (f := fun group : Stored.t => if (Stored.id group =? groupId)%string
                                    then _ else group).
  assert (Hid : forall x, Stored.id (f x) = Stored.id x).
  { intro x. unfold f. destruct (Stored.id x =? groupId)%string; reflexivity. }
  split.
  - intros other Ho. rewrite (selected_after_update f other groups Hid).
    destruct (selectedGroup groups other) as [x|] eqn:Ex; [|reflexivity].
    cbn [option_map]. apply selected_id in Ex. unfold f.
    destruct (String.eqb_spec (Stored.id x) groupId); [congruence|reflexivity].
  - rewrite (selected_after_update f groupId groups Hid), Hsel.
    cbn [option_map]. exists (f g). split; [reflexivity|].
    unfold f. rewrite (selected_id _ _ _ Hsel), String.eqb_refl.
    cbn [Stored.group Group.members Group.expenses].
    split; [reflexivity|]. split.
    + unfold totalExpenses. cbn [Group.expenses or_empty].
      rewrite fold_left_app. reflexivity.
    + unfold group_balances. cbn [Group.members Group.expenses or_empty].
      rewrite map_app. cbn [map].
      exact (balances_after_expense _ _ e Hnd).
Qed.

Lemma added_expense_moves_balances_witness :
  exists g',
    selectedGroup
      (handleAddExpense (Some (handleLogin 5)) (Some "group_7"%string)
         (Logged.mk dinner "dinner" None)
         [Stored.mk "group_7" (Group.mk (Some [alice; bob; carol]) None)])
      "group_7"
    = Some g'
    /\ totalExpenses (Stored.group g') == 0 + 90.
Proof.
  destruct (added_expense_moves_balances (handleLogin 5) "group_7"
              (Logged.mk dinner "dinner" None)
              [Stored.mk "group_7" (Group.mk (Some [alice; bob; carol]) None)]
              (Stored.mk "group_7" (Group.mk (Some [alice; bob; carol]) None)))
    as (_ & g' & E & _ & Ht & _).
  - discriminate.
  - reflexivity.
  - cbn. repeat constructor; cbn; intuition discriminate.
  - exists g'. split; [exact E|exact Ht].
Defined.

(** ** The settlement screen *)





